(** * A skew-heap priority queue over a pointer store

    Shallow embedding of [sjtu::priority_queue] (src/priority_queue.hpp).

    The C++ class keeps a binary tree of heap-allocated [LeftistNode]s that
    are linked by raw pointers and mutated in place, so the embedding keeps an
    explicit store from addresses to nodes.  A pointer is [option positive]
    ([None] is [nullptr]); dereferencing an address that is not live is
    undefined behaviour and shows up as [Fault].  The comparator may throw,
    hence it returns [option bool].  Recursion over the pointer structure is
    bounded by a fuel argument: one unit per call frame.

    Not modelled: failure of [new] and of copying a [T] (both always
    succeed here), the destructor of the queue as a call of its own
    ([ClearNode] is modelled, [operator=] uses it), and [Traverse], which
    only prints. *)

From Stdlib Require Import ZArith Lia Sorted.
From Equations Require Import Equations.
From stdpp Require Import gmap list fin_maps fin_sets.

#[local] Set Warnings "-clear-no-such-hyp".

(** ** Machine integers *)

(** [size_t] is 64 bits wide, [int] is 32 bits wide and signed. *)
Definition to_size_t (z : Z) : Z := (z mod 2 ^ 64)%Z.
Definition to_int (z : Z) : Z := ((z + 2 ^ 31) mod 2 ^ 32 - 2 ^ 31)%Z.

(** ** Exceptions and outcomes *)

Inductive exn :=
| container_is_empty   (* thrown by [top] and [pop] *)
| compare_failure.     (* whatever the comparator throws *)

(** The result of running a piece of code from a state of type [S]. *)
Inductive outcome (S A : Type) :=
| Ret (a : A) (s : S)        (* normal return *)
| Throw (e : exn) (s : S)    (* an exception leaves the frame, state as it is then *)
| Fault                      (* undefined behaviour: a pointer that is not live is used *)
| OutOfFuel.                   (* fuel exhausted *)
Arguments Ret {S A} a s.
Arguments Throw {S A} e s.
Arguments Fault {S A}.
Arguments OutOfFuel {S A}.

Definition bind {S A B} (m : outcome S A) (k : A → S → outcome S B) : outcome S B :=
  match m with
  | Ret a s => k a s
  | Throw e s => Throw e s
  | Fault => Fault
  | OutOfFuel => OutOfFuel
  end.

Notation "'do' ( x , s ) ← m ; k" := (bind m (fun x s => k))
  (at level 10, x name, s name, m at level 100, k at level 200,
   format "'do'  ( x ,  s )  ←  m ;  '/' k").

Abbreviation ptr := (option positive).

Section SkewHeap.

Context {T : Type}.

(** [Compare{}(x, y)]; [None] when the call throws. *)
Variable Compare : T → T → option bool.

#[local] Set Default Proof Using "Type".

(** ** Nodes and the store *)

Record LeftistNode := mkNode { value : T; ls : ptr; rs : ptr }.

Abbreviation store := (gmap positive LeftistNode).

(** [new LeftistNode(...)] returns an address that is not live. *)
Definition new_addr (σ : store) : positive := fresh (dom σ).

(** The node a possibly null pointer points to. *)
Definition deref (σ : store) (p : ptr) : option LeftistNode :=
  match p with
  | None => None
  | Some a => σ !! a
  end.

Definition set_ls (n : LeftistNode) (p : ptr) : LeftistNode := mkNode (value n) p (rs n).
Definition set_rs (n : LeftistNode) (p : ptr) : LeftistNode := mkNode (value n) (ls n) p.
(** [std::swap(a->ls, a->rs)] *)
Definition swap_sons (n : LeftistNode) : LeftistNode := mkNode (value n) (rs n) (ls n).

(** [operator<] on nodes: [Compare{}(obj_1.value, obj_2.value)]. *)
Definition node_lt (n1 n2 : LeftistNode) : option bool := Compare (value n1) (value n2).

(** ** MergeNode *)

Fixpoint MergeNode (fuel : nat) (a b : ptr) (σ : store) : outcome store ptr :=
  match fuel with
  | O => OutOfFuel
  | S fuel =>
    match a, b with
    | None, _ => Ret b σ
    | _, None => Ret a σ
    | Some pa, Some pb =>
      match σ !! pa, σ !! pb with
      | Some na, Some nb =>
        match node_lt na nb with
        | None => Throw compare_failure σ
        | Some c =>
          (* if ( *a < *b ) std::swap(a, b); *)
          let '(a, b) := if c then (pb, pa) else (pa, pb) in
          match σ !! a with
          | None => Fault
          | Some n =>
            do (r, σ1) ← MergeNode fuel (rs n) (Some b) σ;
            match σ1 !! a with
            | None => Fault
            | Some n1 =>
              (* a->rs = r; std::swap(a->ls, a->rs); return a; *)
              Ret (Some a) (<[a := swap_sons (set_rs n1 r)]> σ1)
            end
          end
        end
      | _, _ => Fault
      end
    end
  end.

(** ** ClearNode
    The parameter is a reference; the function returns the value the
    referenced pointer holds afterwards, and the caller stores it back. *)

Fixpoint ClearNode (fuel : nat) (now : ptr) (σ : store) : outcome store ptr :=
  match fuel with
  | O => OutOfFuel
  | S fuel =>
    match now with
    | None => Ret None σ
    | Some a =>
      match σ !! a with
      | None => Fault
      | Some n =>
        do (l, σ1) ← ClearNode fuel (ls n) σ;
        match σ1 !! a with
        | None => Fault
        | Some n1 =>
          let σ2 := <[a := set_ls n1 l]> σ1 in
          do (r, σ3) ← ClearNode fuel (rs n1) σ2;
          match σ3 !! a with
          | None => Fault
          | Some n3 =>
            let σ4 := <[a := set_rs n3 r]> σ3 in
            (* delete now; now = nullptr; *)
            Ret None (delete a σ4)
          end
        end
      end
    end
  end.

(** ** copy
    [one] is a reference as well: the result is its value afterwards. *)

Fixpoint copy (fuel : nat) (one another : ptr) (σ : store) : outcome store ptr :=
  match fuel with
  | O => OutOfFuel
  | S fuel =>
    match another with
    | None => Ret one σ
    | Some b =>
      match σ !! b with
      | None => Fault
      | Some nb =>
        let a := new_addr σ in
        let σ1 := <[a := mkNode (value nb) None None]> σ in
        match σ1 !! a, σ1 !! b with
        | Some na, Some nb1 =>
          do (l, σ2) ← copy fuel (ls na) (ls nb1) σ1;
          match σ2 !! a, σ2 !! b with
          | Some na2, Some nb2 =>
            let σ3 := <[a := set_ls na2 l]> σ2 in
            do (r, σ4) ← copy fuel (rs na2) (rs nb2) σ3;
            match σ4 !! a with
            | Some na4 => Ret (Some a) (<[a := set_rs na4 r]> σ4)
            | None => Fault
            end
          | _, _ => Fault
          end
        | _, _ => Fault
        end
      end
    end
  end.

(** ** Traverse
    The result is what is written to [std::cout]: the values in the order
    they are printed, each followed by a space.  Nothing is written to the
    store. *)

Fixpoint Traverse (fuel : nat) (now : ptr) (σ : store) : outcome store (list T) :=
  match fuel with
  | O => OutOfFuel
  | S fuel =>
    match now with
    | None => Ret [] σ
    | Some a =>
      match σ !! a with
      | None => Fault
      | Some n =>
        (* std::cout << now->value << ' '; *)
        do (outl, σ1) ← match ls n with
                         | None => Ret [] σ
                         | Some _ => Traverse fuel (ls n) σ
                         end;
        do (outr, σ2) ← match rs n with
                          | None => Ret [] σ1
                          | Some _ => Traverse fuel (rs n) σ1
                          end;
        Ret (value n :: outl ++ outr) σ2
      end
    end
  end.

(** ** The container *)

Record priority_queue := mkPQ { capacity : Z; root : ptr }.

(** Objects are identified by their position in [objs]; a reference to a
    queue is such a position, so [&other == this] is equality of positions. *)
Record world := mkWorld { mem : store; objs : list priority_queue }.

Definition set_capacity (q : priority_queue) (c : Z) : priority_queue := mkPQ c (root q).
Definition set_root (q : priority_queue) (p : ptr) : priority_queue := mkPQ (capacity q) p.

Definition size (q : priority_queue) : Z := capacity q.
(** [!capacity] *)
Definition empty (q : priority_queue) : bool := (capacity q =? 0)%Z.

(** [priority_queue() : capacity(0), root(nullptr)]; returns the new object. *)
Definition construct (w : world) : outcome world nat :=
  Ret (length (objs w)) (mkWorld (mem w) (objs w ++ [mkPQ 0 None])).

(** [priority_queue(LeftistNode *_root, size_t _capacity = 0)].  The member
    [root] has no initialiser: [junk] is the indeterminate value it holds when
    [copy] is entered. *)
Definition construct_from (fuel : nat) (junk _root : ptr) (_capacity : Z) (w : world)
  : outcome world nat :=
  match copy fuel junk _root (mem w) with
  | Ret r σ => Ret (length (objs w)) (mkWorld σ (objs w ++ [mkPQ (to_size_t _capacity) r]))
  | Throw e σ => Throw e (mkWorld σ (objs w))
  | Fault => Fault
  | OutOfFuel => OutOfFuel
  end.

(** [priority_queue(const priority_queue &other)]: the same, [root] is not
    initialised before [copy(root, other.root)]. *)
Definition construct_copy (fuel : nat) (junk : ptr) (other : nat) (w : world)
  : outcome world nat :=
  match objs w !! other with
  | None => Fault
  | Some o =>
    match copy fuel junk (root o) (mem w) with
    | Ret r σ => Ret (length (objs w)) (mkWorld σ (objs w ++ [mkPQ (capacity o) r]))
    | Throw e σ => Throw e (mkWorld σ (objs w))
    | Fault => Fault
    | OutOfFuel => OutOfFuel
    end
  end.

(** [operator=] *)
Definition assign (fuel : nat) (this other : nat) (w : world) : outcome world unit :=
  if decide (other = this) then Ret tt w
  else
    match objs w !! this, objs w !! other with
    | Some q, Some o =>
      match ClearNode fuel (root q) (mem w) with
      | Ret r0 σ1 =>
        match copy fuel r0 (root o) σ1 with
        | Ret r1 σ2 => Ret tt (mkWorld σ2 (<[this := mkPQ (capacity o) r1]> (objs w)))
        | Throw e σ2 => Throw e (mkWorld σ2 (<[this := set_root q r0]> (objs w)))
        | Fault => Fault
        | OutOfFuel => OutOfFuel
        end
      | Throw e σ1 => Throw e (mkWorld σ1 (objs w))
      | Fault => Fault
      | OutOfFuel => OutOfFuel
      end
    | _, _ => Fault
    end.

Definition top (this : nat) (w : world) : outcome world T :=
  match objs w !! this with
  | None => Fault
  | Some q =>
    if empty q then Throw container_is_empty w
    else
      match deref (mem w) (root q) with
      | None => Fault
      | Some n => Ret (value n) w
      end
  end.

Definition push (fuel : nat) (this : nat) (e : T) (w : world) : outcome world unit :=
  match objs w !! this with
  | None => Fault
  | Some q =>
    let node_pointer := new_addr (mem w) in
    let σ := <[node_pointer := mkNode e None None]> (mem w) in
    match MergeNode fuel (root q) (Some node_pointer) σ with
    | Ret r σ1 =>
      (* root = r; ++capacity; *)
      Ret tt (mkWorld σ1 (<[this := mkPQ (to_size_t (capacity q + 1)) r]> (objs w)))
    | Throw _ σ1 =>
      (* catch (...) { delete node_pointer; return; } *)
      match σ1 !! node_pointer with
      | None => Fault
      | Some _ => Ret tt (mkWorld (delete node_pointer σ1) (objs w))
      end
    | Fault => Fault
    | OutOfFuel => OutOfFuel
    end
  end.

Definition pop (fuel : nat) (this : nat) (w : world) : outcome world unit :=
  match objs w !! this with
  | None => Fault
  | Some q =>
    if empty q then Throw container_is_empty w
    else
      (* int siz = capacity - 1; *)
      let siz := to_int (to_size_t (capacity q - 1)) in
      match root q with
      | None => Fault
      | Some before =>
        match (mem w) !! before with
        | None => Fault
        | Some n =>
          match MergeNode fuel (ls n) (rs n) (mem w) with
          | Ret r σ1 =>
            (* root = r; capacity = siz; delete before; *)
            match σ1 !! before with
            | None => Fault
            | Some _ =>
              Ret tt (mkWorld (delete before σ1)
                              (<[this := mkPQ (to_size_t siz) r]> (objs w)))
            end
          | Throw _ σ1 =>
            (* catch (...) { return; } *)
            Ret tt (mkWorld σ1 (objs w))
          | Fault => Fault
          | OutOfFuel => OutOfFuel
          end
        end
      end
  end.

Definition merge (fuel : nat) (this other : nat) (w : world) : outcome world unit :=
  match objs w !! this, objs w !! other with
  | Some q, Some o =>
    match MergeNode fuel (root q) (root o) (mem w) with
    | Ret r σ1 =>
      (* root = r; *)
      let os1 := <[this := set_root q r]> (objs w) in
      (* capacity += other.capacity; *)
      match os1 !! this, os1 !! other with
      | Some q1, Some o1 =>
        let os2 := <[this := set_capacity q1 (to_size_t (capacity q1 + capacity o1))]> os1 in
        (* other.capacity = 0, other.root = nullptr; *)
        let os3 := <[other := mkPQ 0 None]> os2 in
        Ret tt (mkWorld σ1 os3)
      | _, _ => Fault
      end
    | Throw _ σ1 =>
      (* catch (...) { return; } *)
      Ret tt (mkWorld σ1 (objs w))
    | Fault => Fault
    | OutOfFuel => OutOfFuel
    end
  | _, _ => Fault
  end.

(** [~priority_queue()]: [ClearNode(root)].  The object itself is gone
    afterwards; its place in [objs] stays, with the null [root] that
    [ClearNode] leaves. *)
Definition destructor (fuel : nat) (this : nat) (w : world) : outcome world unit :=
  match objs w !! this with
  | None => Fault
  | Some q =>
    match ClearNode fuel (root q) (mem w) with
    | Ret r σ => Ret tt (mkWorld σ (<[this := set_root q r]> (objs w)))
    | Throw e σ => Throw e (mkWorld σ (objs w))
    | Fault => Fault
    | OutOfFuel => OutOfFuel
    end
  end.

(** [traverse()]: what it prints. *)
Definition traverse (fuel : nat) (this : nat) (w : world) : outcome world (list T) :=
  match objs w !! this with
  | None => Fault
  | Some q =>
    if empty q then Ret [] w
    else
      match Traverse fuel (root q) (mem w) with
      | Ret out σ => Ret out (mkWorld σ (objs w))
      | Throw e σ => Throw e (mkWorld σ (objs w))
      | Fault => Fault
      | OutOfFuel => OutOfFuel
      end
  end.

(** ** Sequences of calls *)

Inductive op :=
| Construct
| ConstructFrom (junk _root : ptr) (_capacity : Z)
| ConstructCopy (junk : ptr) (other : nat)
| Assign (this other : nat)
| Top (this : nat)
| Push (this : nat) (e : T)
| Pop (this : nat)
| Merge (this other : nat).

Definition forget {A} (o : outcome world A) : outcome world unit :=
  match o with
  | Ret _ w => Ret tt w
  | Throw e w => Throw e w
  | Fault => Fault
  | OutOfFuel => OutOfFuel
  end.

Definition step (fuel : nat) (o : op) (w : world) : outcome world unit :=
  match o with
  | Construct => forget (construct w)
  | ConstructFrom junk _root _capacity => forget (construct_from fuel junk _root _capacity w)
  | ConstructCopy junk other => forget (construct_copy fuel junk other w)
  | Assign this other => assign fuel this other w
  | Top this => forget (top this w)
  | Push this e => push fuel this e w
  | Pop this => pop fuel this w
  | Merge this other => merge fuel this other w
  end.

(** The caller catches what a call throws and goes on. *)
Definition lands (o : outcome world unit) (w' : world) : Prop :=
  o = Ret tt w' ∨ ∃ e, o = Throw e w'.

(** [runs fuel ok w ops w']: the calls [ops], made one after the other from
    [w], all complete and lead to [w']; each is made in a state where [ok]
    allows it. *)
Inductive runs (fuel : nat) (ok : world → op → Prop) : world → list op → world → Prop :=
| runs_nil w : runs fuel ok w [] w
| runs_cons w o w1 ops w2 :
    ok w o → lands (step fuel o w) w1 → runs fuel ok w1 ops w2 →
    runs fuel ok w (o :: ops) w2.

(** The world after a sequence of calls that all complete, each made in a
    state where [okb] allows it; a call that throws is caught. *)
Fixpoint exec_if (okb : world → op → bool) (fuel : nat) (ops : list op) (w : world)
  : option world :=
  match ops with
  | [] => Some w
  | o :: ops =>
    if okb w o then
      match step fuel o w with
      | Ret _ w1 | Throw _ w1 => exec_if okb fuel ops w1
      | _ => None
      end
    else None
  end.

Definition exec : nat → list op → world → option world := exec_if (λ _ _, true).

(** A caller that empties a queue: [n] times [top()] then [pop()]; the
    result is the list of the values [top] returned. *)
Fixpoint drain (fuel n : nat) (this : nat) (w : world) : outcome world (list T) :=
  match n with
  | O => Ret [] w
  | S n =>
    do (v, w1) ← top this w;
    do (_u, w2) ← pop fuel this w1;
    do (vs, w3) ← drain fuel n this w2;
    Ret (v :: vs) w3
  end.

(** ** Abstract trees and how the store represents them *)

Inductive tree := Leaf | Node (l : tree) (v : T) (r : tree).

Fixpoint nodes (t : tree) : nat :=
  match t with
  | Leaf => 0
  | Node l _ r => S (nodes l + nodes r)
  end.

Fixpoint elems (t : tree) : list T :=
  match t with
  | Leaf => []
  | Node l v r => v :: elems l ++ elems r
  end.

(** [rep σ p t d]: in [σ] the pointer [p] is the root of a tree of shape and
    content [t] whose nodes sit at the pairwise different addresses [d]. *)
Inductive rep (σ : store) : ptr → tree → gset positive → Prop :=
| rep_null : rep σ None Leaf ∅
| rep_node a v pl pr l r dl dr :
    σ !! a = Some (mkNode v pl pr) →
    rep σ pl l dl → rep σ pr r dr →
    a ∉ dl → a ∉ dr → dl ## dr →
    rep σ (Some a) (Node l v r) ({[a]} ∪ dl ∪ dr).

(** [reaches σ p x]: the live node at [x] is found from [p] by following
    [ls] and [rs]. *)
Inductive reaches (σ : store) : ptr → positive → Prop :=
| reaches_here a n : σ !! a = Some n → reaches σ (Some a) a
| reaches_ls a n x : σ !! a = Some n → reaches σ (ls n) x → reaches σ (Some a) x
| reaches_rs a n x : σ !! a = Some n → reaches σ (rs n) x → reaches σ (Some a) x.

(** ** The merge on abstract trees *)

(** The comparison as a truth value: a call that throws prefers nothing. *)
Definition lessb (x y : T) : bool :=
  match Compare x y with
  | Some c => c
  | None => false
  end.

(** The skew-heap merge as the specification words it: the root that is not
    strictly before the other stays on top, the other tree is merged into
    its right subtree, then the two subtrees are exchanged. *)
Equations? Merge_spec (a b : tree) : tree by wf (nodes a + nodes b) lt :=
Merge_spec Leaf b := b;
Merge_spec a Leaf := a;
Merge_spec (Node la va ra) (Node lb vb rb) :=
  if lessb va vb
  then Node (Merge_spec rb (Node la va ra)) vb lb
  else Node (Merge_spec ra (Node lb vb rb)) va la.
Proof. all: simpl; lia. Qed.

(** ** Heap order *)

(** [v] is not strictly before the value at the root of [t]. *)
Definition tops (v : T) (t : tree) : bool :=
  match t with
  | Leaf => true
  | Node _ c _ => negb (lessb v c)
  end.

(** No node is strictly before one of its sons. *)
Fixpoint heap_ordered (t : tree) : bool :=
  match t with
  | Leaf => true
  | Node l v r => tops v l && tops v r && heap_ordered l && heap_ordered r
  end.

(** ** Properties of the comparator *)

(** The comparator never throws. *)
Definition total_compare : Prop := ∀ x y, is_Some (Compare x y).

(** The comparator never puts two values strictly before each other. *)
Definition asymmetric : Prop :=
  ∀ x y, Compare x y = Some true → Compare y x ≠ Some true.

(** When [x] is not before [y] and [y] is not before [z], [x] is not
    before [z]: what a strict weak order adds to asymmetry. *)
Definition negatively_transitive : Prop :=
  ∀ x y z, lessb x y = false → lessb y z = false → lessb x z = false.

(** ** What a call of a node function has done *)

(** What a call that returns has done. *)
Definition merged (σ : store) (ta tb : tree) (da db : gset positive)
    (o : outcome store ptr) : Prop :=
  ∃ p σ', o = Ret p σ' ∧
    dom σ' = dom σ ∧
    (∀ x, x ∉ da ∪ db → σ' !! x = σ !! x) ∧
    (∀ x, value <$> σ' !! x = value <$> σ !! x) ∧
    (da ## db → rep σ' p (Merge_spec ta tb) (da ∪ db)).

(** A call runs out of fuel only when it was given no more than [need]. *)
Definition starved {A} (o : outcome store A) (fuel need : nat) : Prop :=
  o = OutOfFuel ∧ fuel ≤ need.

(** ** Several queues in one store *)

(** [shape w ts ds]: queue number [i] owns the tree [ts !! i], stored at the
    addresses [ds !! i]; different queues own different addresses. *)
Record shape (w : world) (ts : list tree) (ds : list (gset positive)) : Prop :=
  mkShape {
    shape_ts : length ts = length (objs w);
    shape_ds : length ds = length (objs w);
    shape_rep i q t d :
      objs w !! i = Some q → ts !! i = Some t → ds !! i = Some d →
      rep (mem w) (root q) t d;
    shape_disj i j di dj :
      i ≠ j → ds !! i = Some di → ds !! j = Some dj → di ## dj
  }.

(** No queue, no node. *)
Definition init : world := mkWorld ∅ [].

(** ** What a call of a member function has done *)

(** What a completed call did, seen on the queues and their trees. *)
Inductive trans : op → list priority_queue → list tree →
                  list priority_queue → list tree → Prop :=
| trans_same o qs ts : trans o qs ts qs ts
| trans_construct qs ts : trans Construct qs ts (qs ++ [mkPQ 0 None]) (ts ++ [Leaf])
| trans_copy junk j qs ts q t p :
    qs !! j = Some q → ts !! j = Some t →
    trans (ConstructCopy junk j) qs ts (qs ++ [mkPQ (capacity q) p]) (ts ++ [t])
| trans_assign i j qs ts q t p :
    j ≠ i → qs !! j = Some q → ts !! j = Some t →
    trans (Assign i j) qs ts (<[i := mkPQ (capacity q) p]> qs) (<[i := t]> ts)
| trans_push i e qs ts q t p :
    qs !! i = Some q → ts !! i = Some t →
    trans (Push i e) qs ts
      (<[i := mkPQ (to_size_t (capacity q + 1)) p]> qs)
      (<[i := Merge_spec t (Node Leaf e Leaf)]> ts)
| trans_pop i qs ts q l v r p :
    qs !! i = Some q → ts !! i = Some (Node l v r) → empty q = false →
    trans (Pop i) qs ts
      (<[i := mkPQ (to_size_t (to_int (to_size_t (capacity q - 1)))) p]> qs)
      (<[i := Merge_spec l r]> ts)
| trans_merge i j qs ts qi qj ti tj p :
    i ≠ j → qs !! i = Some qi → ts !! i = Some ti →
    qs !! j = Some qj → ts !! j = Some tj →
    trans (Merge i j) qs ts
      (<[j := mkPQ 0 None]> (<[i := mkPQ (to_size_t (capacity qi + capacity qj)) p]> qs))
      (<[j := Leaf]> (<[i := Merge_spec ti tj]> ts))
| trans_merge_self i qs ts :
    trans (Merge i i) qs ts (<[i := mkPQ 0 None]> qs) (<[i := Leaf]> ts).

(** Calls after which every queue still owns a tree: all but the
    constructor from a raw node pointer, and the copy constructor only when
    the uninitialised [root] is overwritten or happens to be null. *)
Definition admissible (w : world) (o : op) : Prop :=
  match o with
  | ConstructFrom _ _ _ => False
  | ConstructCopy junk j => junk = None ∨ ∃ q, objs w !! j = Some q ∧ is_Some (root q)
  | _ => True
  end.

(** ** Invariants *)

(** Every queue owns a tree in heap order. *)
Definition all_ordered (ts : list tree) : Prop := Forall (λ t, heap_ordered t = true) ts.

(** [size()] is the number of nodes of the tree the queue owns. *)
Definition all_counted (qs : list priority_queue) (ts : list tree) : Prop :=
  Forall2 (λ q t, size q = Z.of_nat (nodes t)) qs ts.


(** No queue holds more than [INT_MAX + 1] elements. *)
Definition small (qs : list priority_queue) : Prop :=
  Forall (λ q, (size q ≤ 2 ^ 31)%Z) qs.

(** The claim of C7 as it was made: after the failed [pop] the old root
    is live but no longer reachable from the root of the queue. *)
Definition leaked (w : world) (this : nat) (a : positive) : Prop :=
  a ∈ dom (mem w) ∧ ∀ q, objs w !! this = Some q → ¬ reaches (mem w) (root q) a.

(** ** Restrictions on the calls of a sequence *)

(** No restriction. *)
Definition any_call (w : world) (o : op) : Prop := True.

(** The calls whose effect on a queue is a push, a pop or a merge, besides
    construction of an empty queue, [top] and assignment. *)
Definition heap_op (w : world) (o : op) : Prop :=
  match o with
  | Construct | Assign _ _ | Top _ | Push _ _ | Pop _ | Merge _ _ => True
  | ConstructFrom _ _ _ | ConstructCopy _ _ => False
  end.

(** Calls made while no queue holds more than 2^31 elements; the
    constructor from a node pointer is left out and the copy constructor is
    applied to non-empty queues. *)
Definition sized (w : world) (o : op) : Prop :=
  small (objs w) ∧
  match o with
  | ConstructFrom _ _ _ => False
  | ConstructCopy _ j => ∃ q, objs w !! j = Some q ∧ empty q = false
  | _ => True
  end.


(** [heap_op] and [counting] as tests. *)
Definition heap_opb (w : world) (o : op) : bool :=
  match o with
  | Construct | Assign _ _ | Top _ | Push _ _ | Pop _ | Merge _ _ => true
  | ConstructFrom _ _ _ | ConstructCopy _ _ => false
  end.


(** The queues a call names exist. *)
Definition in_range (w : world) (o : op) : Prop :=
  match o with
  | Construct | ConstructFrom _ _ _ => True
  | ConstructCopy _ j => j < length (objs w)
  | Top i | Push i _ | Pop i => i < length (objs w)
  | Assign i j | Merge i j => i < length (objs w) ∧ j < length (objs w)
  end.

(** Calls of [push] and [pop] on queue [c]. *)
Definition touches_only (c : nat) (w : world) (o : op) : Prop :=
  match o with
  | Push i _ | Pop i => i = c
  | _ => False
  end.

(** The value at the root after merging in a single node. *)
Definition top_with (t : tree) (e : T) : T :=
  match t with
  | Leaf => e
  | Node _ v _ => if lessb v e then e else v
  end.

(** The queues a call writes to: the receiver of [push], [pop] and
    [operator=], and both queues of [merge]. *)
Definition writes (k : nat) (o : op) : Prop :=
  match o with
  | Push i _ | Pop i | Assign i _ => i = k
  | Merge i j => i = k ∨ j = k
  | _ => False
  end.

(** Admissible calls that do not write to queue [k]. *)
Definition spares (k : nat) (w : world) (o : op) : Prop :=
  admissible w o ∧ ¬ writes k o.

(** Admissible calls other than the merge of a queue with itself. *)
Definition tidy (w : world) (o : op) : Prop :=
  admissible w o ∧
  match o with
  | Merge i j => i ≠ j
  | _ => True
  end.

(** Tests that accept only calls that [spares] and [tidy] allow: of the
    copy constructor they accept the calls where the uninitialised [root]
    happens to be null. *)
Definition sparesb (k : nat) (w : world) (o : op) : bool :=
  match o with
  | Construct | Top _ | ConstructCopy None _ => true
  | ConstructFrom _ _ _ | ConstructCopy (Some _) _ => false
  | Push i _ | Pop i | Assign i _ => negb (i =? k)
  | Merge i j => negb (i =? k) && negb (j =? k)
  end.

Definition tidyb (w : world) (o : op) : bool :=
  match o with
  | ConstructFrom _ _ _ | ConstructCopy (Some _) _ => false
  | Merge i j => negb (i =? j)
  | _ => true
  end.

(** * Proofs *)

(** ** Facts about [rep] *)

Lemma rep_node' σ a v pl pr l r dl dr d :
  σ !! a = Some (mkNode v pl pr) →
  rep σ pl l dl → rep σ pr r dr →
  a ∉ dl → a ∉ dr → dl ## dr → d = {[a]} ∪ dl ∪ dr →
  rep σ (Some a) (Node l v r) d.
Proof. intros; subst; by econstructor. Qed.

Lemma rep_dom σ p t d : rep σ p t d → d ⊆ dom σ.
Proof.
  clear Compare.
  induction 1 as [|a v pl pr l r dl dr Ha Hl IHl Hr IHr Hal Har Hlr]; [set_solver|].
  assert (a ∈ dom σ) by (apply elem_of_dom; eauto). set_solver.
Qed.

Lemma rep_frame σ σ' p t d :
  rep σ p t d → (∀ x, x ∈ d → σ' !! x = σ !! x) → rep σ' p t d.
Proof.
  clear Compare.
  induction 1 as [|a v pl pr l r dl dr Ha Hl IHl Hr IHr Hal Har Hlr]; intros Hfr.
  - constructor.
  - econstructor; try done.
    + rewrite Hfr; [done | set_solver].
    + apply IHl. intros; apply Hfr; set_solver.
    + apply IHr. intros; apply Hfr; set_solver.
Qed.

Lemma rep_inj σ p t t' d d' : rep σ p t d → rep σ p t' d' → t = t' ∧ d = d'.
Proof.
  intros H; revert t' d'.
  induction H as [|a v pl pr l r dl dr Ha Hl IHl Hr IHr Hal Har Hlr]; intros t' d' H';
    inversion H'; subst; [done|].
  simplify_eq.
  destruct (IHl _ _ ltac:(eassumption)) as [-> ->].
  destruct (IHr _ _ ltac:(eassumption)) as [-> ->]. done.
Qed.


(** ** [MergeNode] on well-formed trees *)

(** A comparison that throws leaves the store as it was: every comparison
    is made on the way down, every write on the way up. *)
Lemma MergeNode_throw fuel a b σ e σ' :
  MergeNode fuel a b σ = Throw e σ' → σ' = σ.
Proof.
  revert a b; induction fuel as [|fuel IH]; intros a b; simpl; [done|].
  destruct a as [pa|], b as [pb|]; try done.
  destruct (σ !! pa) as [na|] eqn:Ea; [|done].
  destruct (σ !! pb) as [nb|] eqn:Eb; [|done].
  destruct (node_lt na nb) as [c|]; [|by intros [= _ ->]].
  destruct c.
  - rewrite Eb.
    destruct (MergeNode fuel (rs nb) (Some pa) σ) as [r σ1|e1 σ1| |] eqn:E;
      simpl; try done.
    + by destruct (σ1 !! pb).
    + intros [= <- <-]. eauto.
  - rewrite Ea.
    destruct (MergeNode fuel (rs na) (Some pb) σ) as [r σ1|e1 σ1| |] eqn:E;
      simpl; try done.
    + by destruct (σ1 !! pa).
    + intros [= <- <-]. eauto.
Qed.

Lemma MergeNode_no_throw fuel a b σ e σ' :
  total_compare → MergeNode fuel a b σ ≠ Throw e σ'.
Proof.
  intros Htot. revert a b e σ'; induction fuel as [|fuel IH]; intros a b e σ'; simpl;
    [done|].
  destruct a as [pa|], b as [pb|]; try done.
  destruct (σ !! pa) as [na|] eqn:Ea; [|done].
  destruct (σ !! pb) as [nb|] eqn:Eb; [|done].
  unfold node_lt. destruct (Htot (value na) (value nb)) as [c ->].
  destruct c.
  - rewrite Eb.
    destruct (MergeNode fuel (rs nb) (Some pa) σ) as [r σ1|e1 σ1| |] eqn:E;
      simpl; try done.
    + by destruct (σ1 !! pb).
    + exfalso. by eapply IH.
  - rewrite Ea.
    destruct (MergeNode fuel (rs na) (Some pb) σ) as [r σ1|e1 σ1| |] eqn:E;
      simpl; try done.
    + by destruct (σ1 !! pa).
    + exfalso. by eapply IH.
Qed.

Lemma MergeNode_rep fuel a b σ ta tb da db :
  rep σ a ta da → rep σ b tb db →
  starved (MergeNode fuel a b σ) fuel (nodes ta + nodes tb) ∨
  merged σ ta tb da db (MergeNode fuel a b σ) ∨
  ∃ e, MergeNode fuel a b σ = Throw e σ.
Proof.
  revert a b ta tb da db; induction fuel as [|fuel IH];
    intros a b ta tb da db Ha Hb; [left; split; [done|lia]|].
  destruct Ha as [|pa va pla pra la ra dla dra Ea Hla Hra ? ? ?].
  { right; left. exists b, σ. simpl. split; [done|]. split_and!; try done.
    intros _. simp Merge_spec. by rewrite (left_id_L ∅ (∪)). }
  destruct Hb as [|pb vb plb prb lb rb dlb drb Eb Hlb Hrb ? ? ?].
  { right; left. exists (Some pa), σ. simpl. split; [done|]. split_and!; try done.
    intros _. simp Merge_spec. rewrite (right_id_L ∅ (∪)). by econstructor. }
  simpl. rewrite Ea, Eb. unfold node_lt; simpl.
  destruct (Compare va vb) as [[]|] eqn:EC; [| |right; right; eauto].
  - (* b stays on top *)
    rewrite Eb; simpl.
    assert (Hta : rep σ (Some pa) (Node la va ra) ({[pa]} ∪ dla ∪ dra))
      by by econstructor.
    destruct (IH _ _ _ _ _ _ Hrb Hta)
      as [[-> Hlow]|[(r & σ1 & -> & Hdom & Hfr & Hval & Hrep)|[e ->]]];
      [left; split; [done|simpl in *; lia]| |right; right; eauto].
    right; left. simpl.
    assert (is_Some (σ1 !! pb)) as [n1 En1].
    { apply elem_of_dom. rewrite Hdom. apply elem_of_dom. eauto. }
    rewrite En1. eexists _, _. split; [done|]. split_and!.
    + rewrite dom_insert_L. assert (pb ∈ dom σ) by (apply elem_of_dom; eauto).
      set_solver.
    + intros x Hx. rewrite lookup_insert_ne by set_solver. apply Hfr. set_solver.
    + intros x. destruct (decide (x = pb)) as [->|].
      * rewrite lookup_insert_eq. simpl. specialize (Hval pb).
        by rewrite En1 in Hval.
      * by rewrite lookup_insert_ne.
    + intros Hdisj.
      assert (σ1 !! pb = Some (mkNode vb plb prb)) as En1'.
      { rewrite Hfr; [done | set_solver]. }
      rewrite En1 in En1'. injection En1' as ->. unfold set_rs, swap_sons; simpl.
      simp Merge_spec. unfold lessb. rewrite EC.
      eapply rep_node' with (dl := drb ∪ ({[pa]} ∪ dla ∪ dra)) (dr := dlb).
      * apply lookup_insert_eq.
      * eapply rep_frame; [apply Hrep; set_solver|].
        intros x Hx. rewrite lookup_insert_ne; [done | set_solver].
      * eapply rep_frame; [apply Hlb|].
        intros x Hx. rewrite lookup_insert_ne by set_solver. apply Hfr. set_solver.
      * set_solver.
      * set_solver.
      * set_solver.
      * set_solver.
  - (* a stays on top *)
    rewrite Ea; simpl.
    assert (Htb : rep σ (Some pb) (Node lb vb rb) ({[pb]} ∪ dlb ∪ drb))
      by by econstructor.
    destruct (IH _ _ _ _ _ _ Hra Htb)
      as [[-> Hlow]|[(r & σ1 & -> & Hdom & Hfr & Hval & Hrep)|[e ->]]];
      [left; split; [done|simpl in *; lia]| |right; right; eauto].
    right; left. simpl.
    assert (is_Some (σ1 !! pa)) as [n1 En1].
    { apply elem_of_dom. rewrite Hdom. apply elem_of_dom. eauto. }
    rewrite En1. eexists _, _. split; [done|]. split_and!.
    + rewrite dom_insert_L. assert (pa ∈ dom σ) by (apply elem_of_dom; eauto).
      set_solver.
    + intros x Hx. rewrite lookup_insert_ne by set_solver. apply Hfr. set_solver.
    + intros x. destruct (decide (x = pa)) as [->|].
      * rewrite lookup_insert_eq. simpl. specialize (Hval pa).
        by rewrite En1 in Hval.
      * by rewrite lookup_insert_ne.
    + intros Hdisj.
      assert (σ1 !! pa = Some (mkNode va pla pra)) as En1'.
      { rewrite Hfr; [done | set_solver]. }
      rewrite En1 in En1'. injection En1' as ->. unfold set_rs, swap_sons; simpl.
      simp Merge_spec. unfold lessb. rewrite EC.
      eapply rep_node' with (dl := dra ∪ ({[pb]} ∪ dlb ∪ drb)) (dr := dla).
      * apply lookup_insert_eq.
      * eapply rep_frame; [apply Hrep; set_solver|].
        intros x Hx. rewrite lookup_insert_ne; [done | set_solver].
      * eapply rep_frame; [apply Hla|].
        intros x Hx. rewrite lookup_insert_ne by set_solver. apply Hfr. set_solver.
      * set_solver.
      * set_solver.
      * set_solver.
      * set_solver.
Qed.

(** ** [ClearNode] and [copy] on well-formed trees *)

Lemma ClearNode_rep fuel p σ t d :
  rep σ p t d →
  starved (ClearNode fuel p σ) fuel (nodes t) ∨
  ∃ σ', ClearNode fuel p σ = Ret None σ' ∧
    dom σ' = dom σ ∖ d ∧ (∀ x, x ∉ d → σ' !! x = σ !! x).
Proof.
  clear Compare.
  revert p σ t d; induction fuel as [|fuel IH]; intros p σ t d Hrep;
    [left; split; [done|lia]|].
  destruct Hrep as [|a v pl pr l r dl dr Ea Hl Hr Hal Har Hlr]; simpl.
  { right. exists σ. split_and!; [done|set_solver +|done]. }
  rewrite Ea; simpl.
  destruct (IH _ _ _ _ Hl) as [[-> Hlow]|(σ1 & -> & Hdom1 & Hfr1)];
    [left; split; [done|lia]|]. simpl.
  rewrite (Hfr1 a Hal), Ea. simpl.
  set (σ2 := <[a := set_ls (mkNode v pl pr) None]> σ1).
  assert (Hr2 : rep σ2 pr r dr).
  { eapply rep_frame; [exact Hr|]. intros x Hx. unfold σ2.
    rewrite lookup_insert_ne by set_solver. apply Hfr1. set_solver. }
  destruct (IH _ _ _ _ Hr2) as [[-> Hlow]|(σ3 & -> & Hdom3 & Hfr3)];
    [left; split; [done|lia]|]. simpl.
  assert (E2a : σ2 !! a = Some (set_ls (mkNode v pl pr) None))
    by apply lookup_insert_eq.
  rewrite (Hfr3 a Har), E2a.
  right. eexists; split; [done|]. split.
  - rewrite dom_delete_L, dom_insert_L, Hdom3. unfold σ2.
    rewrite dom_insert_L, Hdom1. set_solver.
  - intros x Hx. rewrite lookup_delete_ne, lookup_insert_ne by set_solver.
    rewrite Hfr3 by set_solver. unfold σ2.
    rewrite lookup_insert_ne by set_solver. apply Hfr1. set_solver.
Qed.

Lemma new_addr_fresh σ : σ !! new_addr σ = None.
Proof. unfold new_addr. apply (not_elem_of_dom (D := gset positive)), is_fresh. Qed.

(** What [copy] returns: the reference keeps its value for a null source,
    otherwise it holds a copy of the source tree made of fresh nodes. *)
Lemma copy_rep fuel one p σ t d :
  rep σ p t d →
  starved (copy fuel one p σ) fuel (nodes t) ∨
  ∃ q σ' d', copy fuel one p σ = Ret q σ' ∧
    (p = None → q = one ∧ σ' = σ) ∧
    (is_Some p ∨ one = None → rep σ' q t d') ∧
    d' ## dom σ ∧ dom σ' = dom σ ∪ d' ∧
    (∀ x, x ∈ dom σ → σ' !! x = σ !! x).
Proof.
  clear Compare.
  revert one p σ t d; induction fuel as [|fuel IH]; intros one p σ t d Hrep;
    [left; split; [done|lia]|].
  destruct Hrep as [|b v pl pr l r dl dr Eb Hl Hr Hbl Hbr Hlr]; simpl.
  { right. exists one, σ, ∅. split_and!; try done; try set_solver +.
    intros [[? [=]]| ->]. constructor. }
  rewrite Eb; simpl.
  pose proof (new_addr_fresh σ) as Hnew. set (a := new_addr σ) in *.
  assert (a ≠ b) as Hab by congruence.
  rewrite lookup_insert_eq, lookup_insert_ne, Eb by done. simpl.
  set (σ1 := <[a:=mkNode v None None]> σ).
  assert (Hsub : ∀ x, x ∈ dom σ → σ1 !! x = σ !! x).
  { intros x Hx. unfold σ1. rewrite lookup_insert_ne; [done|].
    intros <-. apply elem_of_dom in Hx as [? ?]. congruence. }
  pose proof (rep_dom _ _ _ _ Hl) as Hdl. pose proof (rep_dom _ _ _ _ Hr) as Hdr.
  assert (Hl1 : rep σ1 pl l dl).
  { eapply rep_frame; [exact Hl|]. intros; apply Hsub; set_solver. }
  destruct (IH None _ _ _ _ Hl1)
    as [[-> Hlow]|(ql & σ2 & dl' & -> & _ & Hrl & Hdj2 & Hdom2 & Hfr2)];
    [left; split; [done|lia]|]. simpl.
  specialize (Hrl (or_intror eq_refl)).
  assert (Hdom1 : dom σ1 = {[a]} ∪ dom σ) by (unfold σ1; by rewrite dom_insert_L).
  assert (b ∈ dom σ) as Hbdom by (apply elem_of_dom; eauto).
  assert (E1a : σ1 !! a = Some (mkNode v None None)) by apply lookup_insert_eq.
  assert (E1b : σ1 !! b = Some (mkNode v pl pr)) by (by rewrite Hsub).
  rewrite !Hfr2, E1a, E1b by (rewrite Hdom1; set_solver + Hbdom). simpl.
  set (σ3 := <[a:=set_ls (mkNode v None None) ql]> σ2).
  assert (Hdom3 : dom σ3 = dom σ2).
  { unfold σ3. rewrite dom_insert_L. set_solver. }
  assert (Hr3 : rep σ3 pr r dr).
  { eapply rep_frame; [exact Hr|]. intros x Hx. unfold σ3.
    rewrite lookup_insert_ne.
    - rewrite Hfr2 by set_solver. apply Hsub. set_solver.
    - intros <-. apply Hdr in Hx. apply elem_of_dom in Hx as [? ?]. congruence. }
  destruct (IH None _ _ _ _ Hr3)
    as [[-> Hlow]|(qr & σ4 & dr' & -> & _ & Hrr & Hdj4 & Hdom4 & Hfr4)];
    [left; split; [done|lia]|]. simpl.
  specialize (Hrr (or_intror eq_refl)).
  assert (E3a : σ3 !! a = Some (set_ls (mkNode v None None) ql))
    by apply lookup_insert_eq.
  rewrite Hfr4, E3a by (apply elem_of_dom; eauto).
  right. unfold set_rs, set_ls; simpl.
  pose proof (rep_dom _ _ _ _ Hrl) as Hdl'. pose proof (rep_dom _ _ _ _ Hrr) as Hdr'.
  assert (a ∉ dom σ) as Hadom by (by apply not_elem_of_dom).
  assert (a ∈ dom σ1) as Ha1 by (rewrite Hdom1; set_solver +).
  assert (dom σ ⊆ dom σ1) as S01 by (rewrite Hdom1; set_solver +).
  assert (dom σ1 ⊆ dom σ3) as S13 by (rewrite Hdom3, Hdom2; set_solver +).
  assert (dl' ⊆ dom σ3) as Sl3 by (rewrite Hdom3; exact Hdl').
  assert (a ∉ dl') as Hal' by set_solver + Hdj2 Ha1.
  assert (a ∉ dr') as Har' by set_solver + Hdj4 Ha1 S13.
  eexists _, _, ({[a]} ∪ dl' ∪ dr'). split; [done|]. split_and!.
  - done.
  - intros _. econstructor; [apply lookup_insert_eq| | |done|done|].
    + eapply rep_frame; [exact Hrl|]. intros x Hx.
      rewrite lookup_insert_ne by (intros <-; done).
      rewrite Hfr4 by (apply Sl3, Hx). unfold σ3.
      rewrite lookup_insert_ne by (intros <-; done). done.
    + eapply rep_frame; [exact Hrr|]. intros x Hx.
      rewrite lookup_insert_ne by (intros <-; done). done.
    + set_solver + Sl3 Hdj4.
  - set_solver + Hadom Hdj2 Hdj4 S01 S13.
  - rewrite dom_insert_L, Hdom4, Hdom3, Hdom2, Hdom1. set_solver +.
  - intros x Hx. assert (x ≠ a) by (intros ->; done).
    rewrite lookup_insert_ne by done.
    rewrite Hfr4 by (apply S13, S01, Hx). unfold σ3. rewrite lookup_insert_ne by done.
    rewrite Hfr2 by (apply S01, Hx). by apply Hsub.
Qed.

(** ** The merge on abstract trees *)

Lemma perm_rotate_cons (x : T) (X Y Z : list T) :
  x :: (Z ++ X) ++ Y ≡ₚ X ++ x :: Y ++ Z.
Proof.
  rewrite <-Permutation_middle. constructor.
  rewrite (comm (++) Z X), <-(assoc (++)). f_equiv. apply (comm (++)).
Qed.

Lemma perm_rotate (X Y Z : list T) : (Y ++ Z) ++ X ≡ₚ (X ++ Y) ++ Z.
Proof. by rewrite (comm (++) _ X), (assoc (++)). Qed.

Lemma Merge_spec_elems a b : elems (Merge_spec a b) ≡ₚ elems a ++ elems b.
Proof.
  funelim (Merge_spec a b); simp Merge_spec; [done|by rewrite app_nil_r|].
  destruct (lessb va vb); simpl.
  - rewrite H. apply (perm_rotate_cons vb (va :: _ ++ _)).
  - rewrite H0. constructor. apply perm_rotate.
Qed.

Lemma Merge_spec_nodes a b : nodes (Merge_spec a b) = nodes a + nodes b.
Proof.
  funelim (Merge_spec a b); simp Merge_spec; [done|simpl; lia|].
  destruct (lessb va vb); simpl; [rewrite H|rewrite H0]; simpl; lia.
Qed.

(** ** Heap order *)

Lemma lessb_asym x y : asymmetric → lessb x y = true → lessb y x = false.
Proof.
  unfold lessb. intros Has. destruct (Compare x y) as [[]|] eqn:E; try done.
  intros _. specialize (Has _ _ E). by destruct (Compare y x) as [[]|].
Qed.

Lemma tops_Merge_spec v a b :
  tops v a = true → tops v b = true → tops v (Merge_spec a b) = true.
Proof.
  destruct a as [|la va ra], b as [|lb vb rb]; simp Merge_spec; try done.
  by destruct (lessb va vb).
Qed.

Lemma heap_ordered_Merge_spec a b :
  asymmetric →
  heap_ordered a = true → heap_ordered b = true →
  heap_ordered (Merge_spec a b) = true.
Proof.
  intros Has. funelim (Merge_spec a b); simp Merge_spec; try done.
  intros Ha Hb. pose proof Ha as Ha'. pose proof Hb as Hb'.
  simpl in Ha', Hb'. rewrite !andb_true_iff in Ha', Hb'.
  destruct Ha' as [[[? ?] ?] ?], Hb' as [[[? ?] ?] ?].
  destruct (lessb va vb) eqn:E; simpl; rewrite !andb_true_iff; split_and!;
    try done; auto.
  - apply tops_Merge_spec; [done|]. simpl. by rewrite lessb_asym.
  - apply tops_Merge_spec; [done|]. simpl. by rewrite E.
Qed.

(** ** Several queues in one store *)

Lemma shape_lookup w ts ds i q :
  shape w ts ds → objs w !! i = Some q →
  ∃ t d, ts !! i = Some t ∧ ds !! i = Some d ∧ rep (mem w) (root q) t d.
Proof.
  intros Hs Hq. pose proof (lookup_lt_Some _ _ _ Hq) as Hlt.
  destruct (lookup_lt_is_Some_2 ts i) as [t Ht]; [by rewrite (shape_ts _ _ _ Hs)|].
  destruct (lookup_lt_is_Some_2 ds i) as [d Hd]; [by rewrite (shape_ds _ _ _ Hs)|].
  exists t, d. split_and!; try done. by eapply shape_rep.
Qed.

Lemma shape_update w ts ds i q' t' d' σ' :
  shape w ts ds → i < length (objs w) →
  rep σ' (root q') t' d' →
  (∀ j dj, j ≠ i → ds !! j = Some dj →
     d' ## dj ∧ ∀ x, x ∈ dj → σ' !! x = mem w !! x) →
  shape (mkWorld σ' (<[i := q']> (objs w))) (<[i := t']> ts) (<[i := d']> ds).
Proof.
  intros Hs Hi Hrep Hoth. pose proof (shape_ts _ _ _ Hs). pose proof (shape_ds _ _ _ Hs).
  split; simpl.
  - by rewrite !length_insert.
  - by rewrite !length_insert.
  - intros k q t d Hq Ht Hd. destruct (decide (k = i)) as [->|Hne].
    + rewrite list_lookup_insert_eq in Hq by lia.
      rewrite list_lookup_insert_eq in Ht by lia.
      rewrite list_lookup_insert_eq in Hd by lia. by simplify_eq.
    + rewrite list_lookup_insert_ne in Hq by done.
      rewrite list_lookup_insert_ne in Ht by done.
      rewrite list_lookup_insert_ne in Hd by done.
      eapply rep_frame; [by eapply (shape_rep _ _ _ Hs)|].
      by apply (Hoth k).
  - intros k j dk dj Hkj Hk Hj.
    destruct (decide (k = i)) as [->|Hk'], (decide (j = i)) as [->|Hj']; try done.
    + rewrite list_lookup_insert_eq in Hk by lia.
      rewrite list_lookup_insert_ne in Hj by done. simplify_eq.
      by apply (Hoth j).
    + rewrite list_lookup_insert_eq in Hj by lia.
      rewrite list_lookup_insert_ne in Hk by done. simplify_eq.
      symmetry. by apply (Hoth k).
    + rewrite list_lookup_insert_ne in Hk by done.
      rewrite list_lookup_insert_ne in Hj by done.
      exact (shape_disj _ _ _ Hs _ _ _ _ Hkj Hk Hj).
Qed.

Lemma shape_append w ts ds q' t' d' σ' :
  shape w ts ds →
  rep σ' (root q') t' d' →
  (∀ j dj, ds !! j = Some dj →
     d' ## dj ∧ ∀ x, x ∈ dj → σ' !! x = mem w !! x) →
  shape (mkWorld σ' (objs w ++ [q'])) (ts ++ [t']) (ds ++ [d']).
Proof.
  intros Hs Hrep Hoth. pose proof (shape_ts _ _ _ Hs) as Hlt.
  pose proof (shape_ds _ _ _ Hs) as Hld.
  split; simpl.
  - rewrite !length_app. simpl. lia.
  - rewrite !length_app. simpl. lia.
  - intros k q t d Hq Ht Hd.
    destruct (decide (k < length (objs w))) as [Hk|Hk].
    + rewrite lookup_app_l in Hq by lia.
      rewrite lookup_app_l in Ht by lia.
      rewrite lookup_app_l in Hd by lia.
      eapply rep_frame; [by eapply (shape_rep _ _ _ Hs)|].
      by apply (Hoth k).
    + rewrite lookup_app_r in Hq by lia.
      rewrite lookup_app_r in Ht by lia.
      rewrite lookup_app_r in Hd by lia.
      rewrite Hlt in Ht. rewrite Hld in Hd.
      destruct (k - length (objs w)) as [|n]; simpl in *; [by simplify_eq|].
      by rewrite lookup_nil in Hq.
  - intros k j dk dj Hkj Hk Hj.
    assert (∀ n (x : gset positive), (ds ++ [d']) !! n = Some x →
              (n < length ds ∧ ds !! n = Some x) ∨ (n = length ds ∧ x = d')) as Hcase.
    { intros n x Hn. destruct (decide (n < length ds)).
      - left. by rewrite lookup_app_l in Hn.
      - right. rewrite lookup_app_r in Hn by lia.
        destruct (n - length ds) as [|m] eqn:E; simpl in Hn.
        + split; [lia|congruence].
        + by rewrite lookup_nil in Hn. }
    destruct (Hcase _ _ Hk) as [[? Hk']|[-> ->]], (Hcase _ _ Hj) as [[? Hj']|[-> ->]].
    + exact (shape_disj _ _ _ Hs _ _ _ _ Hkj Hk' Hj').
    + symmetry. by apply (Hoth k).
    + by apply (Hoth j).
    + done.
Qed.

Lemma shape_dom w ts ds j dj :
  shape w ts ds → ds !! j = Some dj → dj ⊆ dom (mem w).
Proof.
  intros Hs Hdj.
  destruct (lookup_lt_is_Some_2 (objs w) j) as [qj Hqj].
  { rewrite <-(shape_ds _ _ _ Hs). by eapply lookup_lt_Some. }
  destruct (shape_lookup _ _ _ _ _ Hs Hqj) as (tj & dj' & _ & Hdj' & Hrj).
  rewrite Hdj in Hdj'. injection Hdj' as <-. by eapply rep_dom.
Qed.

Lemma world_eta w : mkWorld (mem w) (objs w) = w.
Proof. by destruct w. Qed.

(** ** What the member functions do to well-formed queues *)

Lemma rep_singleton (σ : store) a e :
  σ !! a = Some (mkNode e None None) → rep σ (Some a) (Node Leaf e Leaf) {[a]}.
Proof.
  intros Ha. eapply rep_node'; [exact Ha|constructor|constructor| | | |];
    set_solver +.
Qed.

Lemma push_spec fuel i e w ts ds q t d :
  shape w ts ds → objs w !! i = Some q → ts !! i = Some t → ds !! i = Some d →
  (push fuel i e w = OutOfFuel ∧ fuel ≤ nodes t + 1) ∨
  (¬ total_compare ∧ push fuel i e w = Ret tt w) ∨
  ∃ r σ',
    let w' := mkWorld σ' (<[i := mkPQ (to_size_t (capacity q + 1)) r]> (objs w)) in
    push fuel i e w = Ret tt w' ∧
    dom σ' = dom (mem w) ∪ {[new_addr (mem w)]} ∧
    shape w' (<[i := Merge_spec t (Node Leaf e Leaf)]> ts)
             (<[i := d ∪ {[new_addr (mem w)]}]> ds).
Proof.
  intros Hs Hq Ht Hd. pose proof (shape_rep _ _ _ Hs _ _ _ _ Hq Ht Hd) as Hrep.
  unfold push. rewrite Hq.
  pose proof (new_addr_fresh (mem w)) as Hnew. set (a := new_addr (mem w)) in *.
  set (σ0 := <[a := mkNode e None None]> (mem w)).
  assert (Hsub : ∀ x, x ∈ dom (mem w) → σ0 !! x = mem w !! x).
  { intros x Hx. unfold σ0. rewrite lookup_insert_ne; [done|].
    intros <-. apply elem_of_dom in Hx as [? ?]. congruence. }
  assert (Hadom : a ∉ dom (mem w)) by (by apply not_elem_of_dom).
  pose proof (rep_dom _ _ _ _ Hrep) as Hdd.
  assert (Hrep0 : rep σ0 (root q) t d).
  { eapply rep_frame; [exact Hrep|]. intros x Hx. apply Hsub. by apply Hdd. }
  assert (Hnode : rep σ0 (Some a) (Node Leaf e Leaf) {[a]}).
  { apply rep_singleton. apply lookup_insert_eq. }
  destruct (MergeNode_rep fuel _ _ _ _ _ _ _ Hrep0 Hnode)
    as [[-> Hlow]|[(r & σ' & -> & Hdom & Hfr & _ & Hm)|[ex Hex]]].
  - left. split; [done|]. simpl in Hlow. lia.
  - right; right. exists r, σ'. simpl. split; [done|]. split.
    { rewrite Hdom. unfold σ0. rewrite dom_insert_L. set_solver +. }
    apply shape_update; [done|by eapply lookup_lt_Some| |].
    + simpl. apply Hm. set_solver + Hadom Hdd.
    + intros j dj Hj Hdj.
      pose proof (shape_dom _ _ _ _ _ Hs Hdj) as Hdjd.
      pose proof (shape_disj _ _ _ Hs _ _ _ _ Hj Hdj Hd) as Hdisj.
      split; [set_solver + Hdisj Hdjd Hadom|].
      intros x Hx. rewrite Hfr by set_solver + Hx Hdisj Hdjd Hadom.
      apply Hsub. by apply Hdjd.
  - right; left. split.
    { intros Htot. by eapply MergeNode_no_throw. }
    rewrite Hex. unfold σ0. rewrite lookup_insert_eq.
    rewrite delete_insert_id by done. by rewrite world_eta.
Qed.

Lemma pop_spec fuel i w ts ds q t d :
  shape w ts ds → objs w !! i = Some q → ts !! i = Some t → ds !! i = Some d →
  if empty q then pop fuel i w = Throw container_is_empty w
  else
    match t with
    | Leaf => pop fuel i w = Fault
    | Node l v r =>
      (pop fuel i w = OutOfFuel ∧ fuel ≤ nodes l + nodes r) ∨
      (¬ total_compare ∧ pop fuel i w = Ret tt w) ∨
      ∃ p σ' a,
        let w' := mkWorld σ'
          (<[i := mkPQ (to_size_t (to_int (to_size_t (capacity q - 1)))) p]> (objs w)) in
        pop fuel i w = Ret tt w' ∧
        root q = Some a ∧
        dom σ' = dom (mem w) ∖ {[a]} ∧
        shape w' (<[i := Merge_spec l r]> ts) (<[i := d ∖ {[a]}]> ds)
    end.
Proof.
  intros Hs Hq Ht Hd. pose proof (shape_rep _ _ _ Hs _ _ _ _ Hq Ht Hd) as Hrep.
  unfold pop. rewrite Hq. destruct (empty q); [done|].
  destruct Hrep as [|a v pl pr l r dl dr Ea Hl Hr Hal Har Hlr]; [done|].
  rewrite Ea. simpl.
  destruct (MergeNode_rep fuel _ _ _ _ _ _ _ Hl Hr)
    as [[-> Hlow]|[(p & σ' & -> & Hdom & Hfr & _ & Hm)|[ex Hex]]].
  - by left.
  - right; right.
    assert (is_Some (σ' !! a)) as [n' ->].
    { apply elem_of_dom. rewrite Hdom. apply elem_of_dom. eauto. }
    exists p, (delete a σ'), a. simpl. split_and!; [done|done| |].
    { by rewrite dom_delete_L, Hdom. }
    assert (({[a]} ∪ dl ∪ dr) ∖ {[a]} = dl ∪ dr) as -> by set_solver + Hal Har.
    apply shape_update; [done|by eapply lookup_lt_Some| |].
    + simpl. eapply rep_frame; [by apply Hm|].
      intros x Hx. rewrite lookup_delete_ne; [done|]. set_solver + Hx Hal Har.
    + intros j dj Hj Hdj.
      pose proof (shape_disj _ _ _ Hs _ _ _ _ Hj Hdj Hd) as Hdisj.
      split; [set_solver + Hdisj|].
      intros x Hx. rewrite lookup_delete_ne by set_solver + Hx Hdisj.
      apply Hfr. set_solver + Hx Hdisj.
  - right; left. split.
    { intros Htot. by eapply MergeNode_no_throw. }
    rewrite Hex. by rewrite world_eta.
Qed.

(** [merge] of two different queues. *)
Lemma merge_spec fuel i j w ts ds qi qj ti tj di dj :
  shape w ts ds → i ≠ j →
  objs w !! i = Some qi → ts !! i = Some ti → ds !! i = Some di →
  objs w !! j = Some qj → ts !! j = Some tj → ds !! j = Some dj →
  (merge fuel i j w = OutOfFuel ∧ fuel ≤ nodes ti + nodes tj) ∨
  (¬ total_compare ∧ merge fuel i j w = Ret tt w) ∨
  ∃ p σ',
    let w' := mkWorld σ'
      (<[j := mkPQ 0 None]>
         (<[i := mkPQ (to_size_t (capacity qi + capacity qj)) p]> (objs w))) in
    merge fuel i j w = Ret tt w' ∧
    MergeNode fuel (root qi) (root qj) (mem w) = Ret p σ' ∧
    dom σ' = dom (mem w) ∧
    shape w' (<[j := Leaf]> (<[i := Merge_spec ti tj]> ts))
             (<[j := ∅]> (<[i := di ∪ dj]> ds)).
Proof.
  intros Hs Hij Hqi Hti Hdi Hqj Htj Hdj.
  pose proof (shape_rep _ _ _ Hs _ _ _ _ Hqi Hti Hdi) as Hri.
  pose proof (shape_rep _ _ _ Hs _ _ _ _ Hqj Htj Hdj) as Hrj.
  pose proof (shape_disj _ _ _ Hs _ _ _ _ Hij Hdi Hdj) as Hdij.
  pose proof (lookup_lt_Some _ _ _ Hqi) as Hi.
  pose proof (lookup_lt_Some _ _ _ Hqj) as Hj.
  unfold merge. rewrite Hqi, Hqj.
  destruct (MergeNode_rep fuel _ _ _ _ _ _ _ Hri Hrj)
    as [[-> Hlow]|[(p & σ' & -> & Hdom & Hfr & _ & Hm)|[ex Hex]]].
  - by left.
  - right; right. exists p, σ'.
    rewrite list_lookup_insert_eq by done.
    rewrite list_lookup_insert_ne, Hqj by done.
    rewrite list_insert_insert_eq. unfold set_capacity, set_root; simpl.
    split_and!; [done|done|done|].
    assert (Hs0 : shape (mkWorld (mem w) (<[j:=mkPQ 0 None]> (objs w)))
                        (<[j:=Leaf]> ts) (<[j:=∅]> ds)).
    { apply shape_update; [done|done|constructor|]. intros; split; [set_solver +|done]. }
    rewrite (list_insert_insert_ne (objs w)), (list_insert_insert_ne ts),
      (list_insert_insert_ne ds) by done.
    apply (shape_update _ _ _ i _ _ _ _ Hs0); simpl.
    + by rewrite length_insert.
    + by apply Hm.
    + intros k dk Hk Hdk. destruct (decide (k = j)) as [->|Hkj].
      * rewrite list_lookup_insert_eq in Hdk by (rewrite (shape_ds _ _ _ Hs); done).
        injection Hdk as <-. split; [set_solver +|]. intros x Hx. set_solver + Hx.
      * rewrite list_lookup_insert_ne in Hdk by done.
        pose proof (shape_disj _ _ _ Hs _ _ _ _ Hk Hdk Hdi) as Hki.
        pose proof (shape_disj _ _ _ Hs _ _ _ _ Hkj Hdk Hdj) as Hkj'.
        split; [set_solver + Hki Hkj'|].
        intros x Hx. apply Hfr. set_solver + Hx Hki Hkj'.
  - right; left. split.
    { intros Htot. by eapply MergeNode_no_throw. }
    rewrite Hex. by rewrite world_eta.
Qed.

(** [q.merge(q)]: both arguments of [MergeNode] are the same tree.  The
    nodes end up in a cycle that no queue owns, and the queue is empty. *)
Lemma merge_self_spec fuel i w ts ds q t d :
  shape w ts ds →
  objs w !! i = Some q → ts !! i = Some t → ds !! i = Some d →
  (merge fuel i i w = OutOfFuel ∧ fuel ≤ nodes t + nodes t) ∨
  (¬ total_compare ∧ merge fuel i i w = Ret tt w) ∨
  ∃ σ',
    let w' := mkWorld σ' (<[i := mkPQ 0 None]> (objs w)) in
    merge fuel i i w = Ret tt w' ∧
    dom σ' = dom (mem w) ∧
    shape w' (<[i := Leaf]> ts) (<[i := ∅]> ds).
Proof.
  intros Hs Hq Ht Hd.
  pose proof (shape_rep _ _ _ Hs _ _ _ _ Hq Ht Hd) as Hr.
  pose proof (lookup_lt_Some _ _ _ Hq) as Hi.
  unfold merge. rewrite Hq.
  destruct (MergeNode_rep fuel _ _ _ _ _ _ _ Hr Hr)
    as [[-> Hlow]|[(p & σ' & -> & Hdom & Hfr & _ & _)|[ex Hex]]].
  - by left.
  - right; right. exists σ'.
    rewrite list_lookup_insert_eq by done.
    rewrite !list_insert_insert_eq. simpl. split_and!; [done|done|].
    apply shape_update; [done|done|constructor|].
    intros k dk Hk Hdk.
    pose proof (shape_disj _ _ _ Hs _ _ _ _ Hk Hdk Hd) as Hki.
    split; [set_solver +|]. intros x Hx. apply Hfr. set_solver + Hx Hki.
  - right; left. split.
    { intros Htot. by eapply MergeNode_no_throw. }
    rewrite Hex. by rewrite world_eta.
Qed.

(** [operator=] between two different queues. *)
Lemma assign_spec fuel i j w ts ds qi qj ti tj di dj :
  shape w ts ds → j ≠ i →
  objs w !! i = Some qi → ts !! i = Some ti → ds !! i = Some di →
  objs w !! j = Some qj → ts !! j = Some tj → ds !! j = Some dj →
  (assign fuel i j w = OutOfFuel ∧ fuel ≤ nodes ti + nodes tj) ∨
  ∃ p σ' d',
    let w' := mkWorld σ' (<[i := mkPQ (capacity qj) p]> (objs w)) in
    assign fuel i j w = Ret tt w' ∧
    shape w' (<[i := tj]> ts) (<[i := d']> ds).
Proof.
  intros Hs Hji Hqi Hti Hdi Hqj Htj Hdj.
  pose proof (shape_rep _ _ _ Hs _ _ _ _ Hqi Hti Hdi) as Hri.
  pose proof (shape_rep _ _ _ Hs _ _ _ _ Hqj Htj Hdj) as Hrj.
  pose proof (shape_disj _ _ _ Hs _ _ _ _ Hji Hdj Hdi) as Hdji.
  pose proof (lookup_lt_Some _ _ _ Hqi) as Hi.
  unfold assign. rewrite decide_False by done. rewrite Hqi, Hqj.
  destruct (ClearNode_rep fuel _ _ _ _ Hri) as [[-> Hlow]|(σ1 & -> & Hdom1 & Hfr1)].
  { left. split; [done|lia]. }
  assert (Hrj1 : rep σ1 (root qj) tj dj).
  { eapply rep_frame; [exact Hrj|]. intros x Hx. apply Hfr1. set_solver + Hx Hdji. }
  destruct (copy_rep fuel None _ _ _ _ Hrj1)
    as [[-> Hlow]|(p & σ2 & d' & -> & _ & Hrp & Hdj2 & Hdom2 & Hfr2)].
  { left. split; [done|lia]. }
  right. exists p, σ2, d'. simpl. split; [done|].
  apply shape_update; [done|done|by apply Hrp; right|].
  intros k dk Hk Hdk.
  pose proof (shape_disj _ _ _ Hs _ _ _ _ Hk Hdk Hdi) as Hki.
  pose proof (shape_dom _ _ _ _ _ Hs Hdk) as Hkd.
  assert (dk ⊆ dom σ1) as Hk1 by (rewrite Hdom1; set_solver + Hki Hkd).
  split; [set_solver + Hk1 Hdj2|].
  intros x Hx. rewrite Hfr2 by (by apply Hk1). apply Hfr1. set_solver + Hx Hki.
Qed.

Lemma construct_spec w ts ds :
  shape w ts ds →
  let w' := mkWorld (mem w) (objs w ++ [mkPQ 0 None]) in
  construct w = Ret (length (objs w)) w' ∧ shape w' (ts ++ [Leaf]) (ds ++ [∅]).
Proof.
  intros Hs. split; [done|].
  apply (shape_append _ _ _ (mkPQ 0 None)); [done|constructor|].
  intros; split; [set_solver +|done].
Qed.

(** The copy constructor yields a queue only when the source has a root:
    for an empty source [root] keeps the indeterminate value [junk]. *)
Lemma construct_copy_spec fuel junk j w ts ds qj tj dj :
  shape w ts ds →
  objs w !! j = Some qj → ts !! j = Some tj → ds !! j = Some dj →
  (construct_copy fuel junk j w = OutOfFuel ∧ fuel ≤ nodes tj) ∨
  ∃ p σ' d',
    let w' := mkWorld σ' (objs w ++ [mkPQ (capacity qj) p]) in
    construct_copy fuel junk j w = Ret (length (objs w)) w' ∧
    (root qj = None → p = junk ∧ σ' = mem w) ∧
    (is_Some (root qj) ∨ junk = None → shape w' (ts ++ [tj]) (ds ++ [d'])).
Proof.
  intros Hs Hqj Htj Hdj.
  pose proof (shape_rep _ _ _ Hs _ _ _ _ Hqj Htj Hdj) as Hrj.
  unfold construct_copy. rewrite Hqj.
  destruct (copy_rep fuel junk _ _ _ _ Hrj)
    as [[-> Hlow]|(p & σ2 & d' & -> & Hnull & Hrp & Hdj2 & Hdom2 & Hfr2)].
  { by left. }
  right. exists p, σ2, d'. simpl. split_and!; [done|done|].
  intros Hok. apply (shape_append _ _ _ (mkPQ (capacity qj) p)); [done|by apply Hrp|].
  intros k dk Hdk. pose proof (shape_dom _ _ _ _ _ Hs Hdk) as Hkd.
  split; [set_solver + Hkd Hdj2|]. intros x Hx. apply Hfr2. by apply Hkd.
Qed.

(** ** Sequences of calls *)

Lemma step_shape fuel o w ts ds w' :
  shape w ts ds → admissible w o → lands (step fuel o w) w' →
  ∃ ts' ds', shape w' ts' ds' ∧ trans o (objs w) ts (objs w') ts'.
Proof.
  intros Hs Hadm Hland.
  assert (Hsame : w' = w → ∃ ts' ds', shape w' ts' ds' ∧ trans o (objs w) ts (objs w') ts').
  { intros ->. exists ts, ds. split; [done|constructor]. }
  destruct o as [|junk rt c|junk j|i j|i|i e|i|i j]; simpl in *.
  - destruct (construct_spec _ _ _ Hs) as [_ Hs'].
    destruct Hland as [[= <-]|[? [=]]].
    eexists _, _. split; [exact Hs'|constructor].
  - done.
  - destruct (objs w !! j) as [qj|] eqn:Hqj;
      [|unfold construct_copy in Hland; rewrite Hqj in Hland;
        by destruct Hland as [|[? ?]]].
    destruct (shape_lookup _ _ _ _ _ Hs Hqj) as (tj & dj & Htj & Hdj & _).
    destruct (construct_copy_spec fuel junk _ _ _ _ _ _ _ Hs Hqj Htj Hdj)
      as [[E _]|(p & σ' & d' & E & _ & Hs')];
      rewrite E in Hland; simpl in Hland; [by destruct Hland as [|[? ?]]|].
    destruct Hland as [[= <-]|[? [=]]].
    eexists _, _. split; [apply Hs'|by econstructor].
    destruct Hadm as [->|(q & Hq & Hroot)]; [by right|left; congruence].
  - destruct (decide (j = i)) as [->|Hji].
    { unfold assign in Hland. rewrite decide_True in Hland by done.
      destruct Hland as [[= <-]|[? [=]]]. by apply Hsame. }
    destruct (objs w !! i) as [qi|] eqn:Hqi;
      [|unfold assign in Hland; rewrite decide_False, Hqi in Hland by done;
        by destruct Hland as [|[? ?]]].
    destruct (objs w !! j) as [qj|] eqn:Hqj;
      [|unfold assign in Hland; rewrite decide_False, Hqi, Hqj in Hland by done;
        by destruct Hland as [|[? ?]]].
    destruct (shape_lookup _ _ _ _ _ Hs Hqi) as (ti & di & Hti & Hdi & _).
    destruct (shape_lookup _ _ _ _ _ Hs Hqj) as (tj & dj & Htj & Hdj & _).
    destruct (assign_spec fuel _ _ _ _ _ _ _ _ _ _ _ Hs Hji Hqi Hti Hdi Hqj Htj Hdj)
      as [[E _]|(p & σ' & d' & E & Hs')];
      rewrite E in Hland; [by destruct Hland as [|[? ?]]|].
    destruct Hland as [[= <-]|[? [=]]].
    eexists _, _. split; [apply Hs'|by econstructor].
  - apply Hsame. unfold top in Hland.
    destruct (objs w !! i) as [q|]; [|by destruct Hland as [|[? ?]]].
    destruct (empty q); simpl in Hland.
    { by destruct Hland as [|[? [= _ <-]]]. }
    destruct (deref (mem w) (root q)); simpl in Hland;
      [by destruct Hland as [[= <-]|[? [=]]] | by destruct Hland as [|[? ?]]].
  - destruct (objs w !! i) as [q|] eqn:Hq;
      [|unfold push in Hland; rewrite Hq in Hland; by destruct Hland as [|[? ?]]].
    destruct (shape_lookup _ _ _ _ _ Hs Hq) as (t & d & Ht & Hd & _).
    destruct (push_spec fuel _ e _ _ _ _ _ _ Hs Hq Ht Hd)
      as [[E _]|[[_ E]|(p & σ' & E & _ & Hs')]];
      rewrite E in Hland; [by destruct Hland as [|[? ?]]| |].
    { destruct Hland as [[= <-]|[? [=]]]. by apply Hsame. }
    destruct Hland as [[= <-]|[? [=]]].
    eexists _, _. split; [apply Hs'|by econstructor].
  - destruct (objs w !! i) as [q|] eqn:Hq;
      [|unfold pop in Hland; rewrite Hq in Hland; by destruct Hland as [|[? ?]]].
    destruct (shape_lookup _ _ _ _ _ Hs Hq) as (t & d & Ht & Hd & _).
    pose proof (pop_spec fuel _ _ _ _ _ _ _ Hs Hq Ht Hd) as Hpop.
    destruct (empty q) eqn:Hemp.
    { rewrite Hpop in Hland. apply Hsame. by destruct Hland as [|[? [= _ <-]]]. }
    destruct t as [|l v r]; [rewrite Hpop in Hland; by destruct Hland as [|[? ?]]|].
    destruct Hpop as [[E _]|[[_ E]|(p & σ' & a & E & _ & _ & Hs')]];
      rewrite E in Hland; [by destruct Hland as [|[? ?]]| |].
    { destruct Hland as [[= <-]|[? [=]]]. by apply Hsame. }
    destruct Hland as [[= <-]|[? [=]]].
    eexists _, _. split; [apply Hs'|by econstructor].
  - destruct (objs w !! i) as [qi|] eqn:Hqi;
      [|unfold merge in Hland; rewrite Hqi in Hland; by destruct Hland as [|[? ?]]].
    destruct (shape_lookup _ _ _ _ _ Hs Hqi) as (ti & di & Hti & Hdi & _).
    destruct (decide (i = j)) as [<-|Hij].
    { destruct (merge_self_spec fuel _ _ _ _ _ _ _ Hs Hqi Hti Hdi)
        as [[E _]|[[_ E]|(σ' & E & _ & Hs')]];
        rewrite E in Hland; [by destruct Hland as [|[? ?]]| |].
      { destruct Hland as [[= <-]|[? [=]]]. by apply Hsame. }
      destruct Hland as [[= <-]|[? [=]]].
      eexists _, _. split; [apply Hs'|by econstructor]. }
    destruct (objs w !! j) as [qj|] eqn:Hqj;
      [|unfold merge in Hland; rewrite Hqi, Hqj in Hland; by destruct Hland as [|[? ?]]].
    destruct (shape_lookup _ _ _ _ _ Hs Hqj) as (tj & dj & Htj & Hdj & _).
    destruct (merge_spec fuel _ _ _ _ _ _ _ _ _ _ _ Hs Hij Hqi Hti Hdi Hqj Htj Hdj)
      as [[E _]|[[_ E]|(p & σ' & E & _ & _ & Hs')]];
      rewrite E in Hland; [by destruct Hland as [|[? ?]]| |].
    { destruct Hland as [[= <-]|[? [=]]]. by apply Hsame. }
    destruct Hland as [[= <-]|[? [=]]].
    eexists _, _. split; [apply Hs'|by econstructor].
Qed.

(** ** Invariants along a sequence of calls *)

Lemma shape_init : shape init [] [].
Proof. split; simpl; try done; intros i ?; by rewrite ?lookup_nil. Qed.

Lemma runs_invariant fuel (ok : world → op → Prop)
    (P : list priority_queue → list tree → Prop) :
  (∀ w o ts ds, shape w ts ds → P (objs w) ts → ok w o →
     admissible w o ∧ ∀ qs' ts', trans o (objs w) ts qs' ts' → P qs' ts') →
  ∀ w ops w', runs fuel ok w ops w' →
  ∀ ts ds, shape w ts ds → P (objs w) ts →
  ∃ ts' ds', shape w' ts' ds' ∧ P (objs w') ts'.
Proof.
  intros Hstep w ops w' Hruns.
  induction Hruns as [w|w o w1 ops w2 Hok Hland _ IH]; intros ts ds Hs HP; [eauto|].
  destruct (Hstep _ _ _ _ Hs HP Hok) as [Hadm Hpres].
  destruct (step_shape _ _ _ _ _ _ Hs Hadm Hland) as (ts1 & ds1 & Hs1 & Htr).
  eapply IH; [exact Hs1|]. by apply Hpres.
Qed.

(** In every state reached by admissible calls each queue owns a tree, and
    no two queues share a node: what the statements about single calls
    assume of their queues. *)
Lemma reachable_shape fuel ok ops w :
  (∀ w o, ok w o → admissible w o) →
  runs fuel ok init ops w → ∃ ts ds, shape w ts ds.
Proof.
  intros Hok Hruns.
  destruct (runs_invariant fuel ok (λ _ _, True)) with
    (w := init) (ops := ops) (w' := w) (ts := @nil tree) (ds := @nil (gset positive))
    as (ts & ds & Hs & _); [|done|apply shape_init|done|eauto].
  intros w0 o ts ds _ _ Ho. split; [by apply Hok|done].
Qed.

Lemma trans_heap_ordered o qs ts qs' ts' :
  asymmetric → trans o qs ts qs' ts' → all_ordered ts → all_ordered ts'.
Proof.
  unfold all_ordered. intros Has Htr Hall.
  assert (Hget : ∀ i t, ts !! i = Some t → heap_ordered t = true).
  { intros i t Hi. by eapply (Forall_lookup_1 _ _ _ _ Hall). }
  destruct Htr as [| |junk j ? ? q t p Hq Ht|i j ? ? q t p Hji Hq Ht
                   |i e ? ? q t p Hq Ht|i ? ? q l v r p Hq Ht He
                   |i j ? ? qi qj ti tj p Hij Hqi Hti Hqj Htj|i ? ?].
  - done.
  - apply Forall_app; split; [done|]. by repeat constructor.
  - apply Forall_app; split; [done|]. repeat constructor. by eapply Hget.
  - apply Forall_insert; [done|]. by eapply Hget.
  - apply Forall_insert; [done|].
    apply heap_ordered_Merge_spec; [done|by eapply Hget|done].
  - apply Forall_insert; [done|]. pose proof (Hget _ _ Ht) as Hn. simpl in Hn.
    rewrite !andb_true_iff in Hn. destruct Hn as [[[? ?] ?] ?].
    by apply heap_ordered_Merge_spec.
  - apply Forall_insert; [|done]. apply Forall_insert; [done|].
    apply heap_ordered_Merge_spec; [done|by eapply Hget|by eapply Hget].
  - by apply Forall_insert.
Qed.

Lemma to_size_t_id z : (0 ≤ z < 2 ^ 64)%Z → to_size_t z = z.
Proof. intros. unfold to_size_t. by apply Z.mod_small. Qed.

Lemma to_int_id z : (- 2 ^ 31 ≤ z < 2 ^ 31)%Z → to_int z = z.
Proof. intros. unfold to_int. rewrite Z.mod_small; lia. Qed.


(** ** Reachability *)


(** ** The root is extremal *)

Lemma tops_all v t :
  negatively_transitive →
  heap_ordered t = true → tops v t = true → ∀ x, x ∈ elems t → lessb v x = false.
Proof.
  intros Hnt. revert v. induction t as [|l IHl c r IHr]; intros v Ho Hv x Hx.
  { by apply elem_of_nil in Hx. }
  simpl in Ho, Hv, Hx. rewrite !andb_true_iff in Ho. destruct Ho as [[[Hl Hr] Hol] Hor].
  apply negb_true_iff in Hv.
  assert (∀ s, tops c s = true → tops v s = true) as Hdown.
  { intros [|? cs ?]; simpl; [done|]. rewrite !negb_true_iff. by apply Hnt. }
  apply elem_of_cons in Hx as [->|Hx]; [done|].
  apply elem_of_app in Hx as [Hx|Hx]; [apply IHl|apply IHr]; auto.
Qed.

(** ** The merge algorithm *)

(** One call of [MergeNode] on two nodes: the comparison, the recursive call
    on the right son of the node that stays on top, the attachment and the
    exchange of the sons. *)
Lemma MergeNode_unfold fuel pa pb σ na nb c :
  σ !! pa = Some na → σ !! pb = Some nb →
  Compare (value na) (value nb) = Some c →
  MergeNode (S fuel) (Some pa) (Some pb) σ =
    bind (MergeNode fuel (rs (if c then nb else na)) (Some (if c then pa else pb)) σ)
      (λ r σ1,
         match σ1 !! (if c then pb else pa) with
         | None => Fault
         | Some n1 =>
           Ret (Some (if c then pb else pa))
               (<[(if c then pb else pa) := swap_sons (set_rs n1 r)]> σ1)
         end).
Proof.
  intros Ea Eb Ec. simpl. rewrite Ea, Eb. unfold node_lt. rewrite Ec.
  destruct c; [by rewrite Eb|by rewrite Ea].
Qed.

(** C9: [MergeNode] terminates on finite trees.  With more fuel than the two
    trees have nodes the call returns or throws, it never runs out; and the
    recursive call it makes is on two trees that together have strictly fewer
    nodes.  The two trees may even share nodes. *)
Theorem MergeNode_terminates fuel σ a b ta tb da db :
  rep σ a ta da → rep σ b tb db →
  nodes ta + nodes tb < fuel →
  ((∃ p σ', MergeNode fuel a b σ = Ret p σ') ∨ (∃ e, MergeNode fuel a b σ = Throw e σ)) ∧
  (∀ pa pb na nb c,
     a = Some pa → b = Some pb → σ !! pa = Some na → σ !! pb = Some nb →
     Compare (value na) (value nb) = Some c →
     ∃ ta' tb' da' db',
       rep σ (rs (if c then nb else na)) ta' da' ∧
       rep σ (Some (if c then pa else pb)) tb' db' ∧
       nodes ta' + nodes tb' < nodes ta + nodes tb ∧
       MergeNode fuel a b σ =
         bind (MergeNode (pred fuel) (rs (if c then nb else na))
                 (Some (if c then pa else pb)) σ)
           (λ r σ1,
              match σ1 !! (if c then pb else pa) with
              | None => Fault
              | Some n1 =>
                Ret (Some (if c then pb else pa))
                    (<[(if c then pb else pa) := swap_sons (set_rs n1 r)]> σ1)
              end)).
Proof.
  intros Ha Hb Hfuel. split.
  - destruct (MergeNode_rep fuel _ _ _ _ _ _ _ Ha Hb)
      as [[_ Hlow]|[(p & σ' & E & _)|[e E]]]; [lia|left; eauto|right; eauto].
  - intros pa pb na nb c -> -> Ea Eb Ec.
    destruct fuel as [|fuel]; [lia|].
    inversion Ha as [|? va pla pra la ra dla dra Ea' Hla Hra]; subst.
    inversion Hb as [|? vb plb prb lb rb dlb drb Eb' Hlb Hrb]; subst.
    rewrite Ea in Ea'. rewrite Eb in Eb'. simplify_eq.
    rewrite (MergeNode_unfold _ _ _ _ _ _ c Ea Eb Ec).
    destruct c; simpl.
    + exists rb, (Node la va ra), drb, ({[pa]} ∪ dla ∪ dra).
      split_and!; [done|done|simpl; lia|done].
    + exists ra, (Node lb vb rb), dra, ({[pb]} ∪ dlb ∪ drb).
      split_and!; [done|done|simpl; lia|done].
Qed.

(** C1: [MergeNode] is the skew-heap merge.  On two trees without common
    nodes, with a comparator that does not throw: a null argument gives the
    other one back and nothing is written; otherwise the comparator is asked
    about [(a, b)], the first argument stays on top unless it is strictly
    before the second, the other tree is merged with the right son of the
    top node, and the result becomes the left son while the old left son
    becomes the right son.  The tree returned is [Merge_spec] of the two
    trees and holds their elements, each as often as they do together. *)
Theorem MergeNode_skew_merge fuel σ a b ta tb da db :
  total_compare →
  rep σ a ta da → rep σ b tb db → da ## db →
  nodes ta + nodes tb < fuel →
  ∃ p σ',
    MergeNode fuel a b σ = Ret p σ' ∧
    rep σ' p (Merge_spec ta tb) (da ∪ db) ∧
    elems (Merge_spec ta tb) ≡ₚ elems ta ++ elems tb ∧
    (a = None → p = b ∧ σ' = σ) ∧
    (b = None → p = a ∧ σ' = σ) ∧
    (∀ pa pb na nb,
       a = Some pa → b = Some pb → σ !! pa = Some na → σ !! pb = Some nb →
       ∃ c m σ1,
         Compare (value na) (value nb) = Some c ∧
         MergeNode (pred fuel) (rs (if c then nb else na))
           (Some (if c then pa else pb)) σ = Ret m σ1 ∧
         p = Some (if c then pb else pa) ∧
         σ' = <[(if c then pb else pa) :=
                  mkNode (value (if c then nb else na)) m (ls (if c then nb else na))]> σ1).
Proof.
  intros Htot Ha Hb Hdisj Hfuel.
  destruct (MergeNode_rep fuel _ _ _ _ _ _ _ Ha Hb)
    as [[_ Hlow]|[(p & σ' & E & _ & _ & _ & Hm)|[e E]]];
    [lia| |by apply MergeNode_no_throw in E].
  exists p, σ'. split_and!; [done|by apply Hm|apply Merge_spec_elems| | |].
  - intros ->. destruct fuel; [lia|]. simpl in E. by injection E as <- <-.
  - intros ->. destruct fuel; [lia|]. simpl in E.
    destruct a; by injection E as <- <-.
  - intros pa pb na nb -> -> Ea Eb.
    destruct (Htot (value na) (value nb)) as [c Ec]. exists c.
    destruct fuel as [|fuel]; [lia|].
    rewrite (MergeNode_unfold _ _ _ _ _ _ c Ea Eb Ec) in E. simpl.
    inversion Ha as [|? va pla pra la ra dla dra Ea' Hla Hra Hala Hara Hlra]; subst.
    inversion Hb as [|? vb plb prb lb rb dlb drb Eb' Hlb Hrb Hblb Hbrb Hlrb]; subst.
    rewrite Ea in Ea'. rewrite Eb in Eb'. simplify_eq. simpl in *.
    destruct c; simpl in *.
    + destruct (MergeNode_rep fuel _ _ _ _ _ _ _ Hrb Ha)
        as [[_ Hlow]|[(m & σ1 & E1 & _ & Hfr & _)|[e E1]]];
        [simpl in *; lia| |by apply MergeNode_no_throw in E1].
      rewrite E1 in E. simpl in E.
      rewrite Hfr, Eb in E by set_solver + Hdisj Hbrb.
      exists m, σ1. by injection E as <- <-.
    + destruct (MergeNode_rep fuel _ _ _ _ _ _ _ Hra Hb)
        as [[_ Hlow]|[(m & σ1 & E1 & _ & Hfr & _)|[e E1]]];
        [simpl in *; lia| |by apply MergeNode_no_throw in E1].
      rewrite E1 in E. simpl in E.
      rewrite Hfr, Ea in E by set_solver + Hdisj Hara.
      exists m, σ1. by injection E as <- <-.
Qed.

(** ** Heap order and size along sequences of calls *)

(** C2: after any sequence of calls that starts without queues, every
    queue owns a tree in heap order: no node's value is strictly before the
    value of one of its sons.  The comparator is only assumed asymmetric;
    when it is also negatively transitive, as a strict weak order is, the
    value at the root is strictly before none of the values in the tree. *)
Theorem heap_order_invariant fuel ops w :
  asymmetric →
  runs fuel heap_op init ops w →
  ∀ i q, objs w !! i = Some q →
  ∃ t d, rep (mem w) (root q) t d ∧ heap_ordered t = true ∧
    (negatively_transitive →
     ∀ n, deref (mem w) (root q) = Some n → ∀ x, x ∈ elems t → lessb (value n) x = false).
Proof.
  intros Has Hruns i q Hq.
  destruct (runs_invariant fuel heap_op (λ _ ts, all_ordered ts)) with
    (w := init) (ops := ops) (w' := w) (ts := @nil tree) (ds := @nil (gset positive))
    as (ts & ds & Hs & Hall); [|done|apply shape_init|by constructor|].
  { intros w0 o ts ds _ Hall Hok. split.
    - by destruct o.
    - intros qs' ts' Htr. by eapply trans_heap_ordered. }
  destruct (shape_lookup _ _ _ _ _ Hs Hq) as (t & d & Ht & Hd & Hrep).
  pose proof (Forall_lookup_1 _ _ _ _ Hall Ht) as Ho. simpl in Ho.
  exists t, d. split_and!; [done|done|].
  intros Hnt n Hn x Hx. destruct Hrep as [|a v pl pr l r dl dr Ea]; [done|].
  simpl in Hn. rewrite Ea in Hn. injection Hn as <-. simpl.
  apply (tops_all v (Node l v r)); try done. simpl.
  destruct (lessb v v) eqn:E; [|done]. by rewrite (lessb_asym _ _ Has E) in E.
Qed.


(** ** The queue operations one by one *)

(** C3: [A.merge(B)] for two different queues that own trees without common
    nodes, with a comparator that does not throw: the call returns, [A] owns
    the merge of the two trees, built by [MergeNode(A.root, B.root)], its
    size is the sum of the two sizes (computed in [size_t], so the plain sum
    whenever that fits), and [B] is the empty queue. *)
Theorem merge_size_law fuel w this other A B ta tb da db :
  total_compare →
  this ≠ other →
  objs w !! this = Some A → objs w !! other = Some B →
  rep (mem w) (root A) ta da → rep (mem w) (root B) tb db → da ## db →
  nodes ta + nodes tb < fuel →
  ∃ w' A' B',
    merge fuel this other w = Ret tt w' ∧
    objs w' !! this = Some A' ∧ objs w' !! other = Some B' ∧
    size A' = to_size_t (size A + size B) ∧
    ((0 ≤ size A + size B < 2 ^ 64)%Z → size A' = (size A + size B)%Z) ∧
    MergeNode fuel (root A) (root B) (mem w) = Ret (root A') (mem w') ∧
    rep (mem w') (root A') (Merge_spec ta tb) (da ∪ db) ∧
    size B' = 0%Z ∧ empty B' = true ∧ root B' = None.
Proof.
  intros Htot Hne HA HB Ha Hb Hdisj Hfuel.
  pose proof (lookup_lt_Some _ _ _ HA) as Hi.
  pose proof (lookup_lt_Some _ _ _ HB) as Hj.
  destruct (MergeNode_rep fuel _ _ _ _ _ _ _ Ha Hb)
    as [[_ Hlow]|[(p & σ' & E & _ & _ & _ & Hm)|[e E]]];
    [lia| |by apply MergeNode_no_throw in E].
  unfold merge. rewrite HA, HB, E.
  rewrite list_lookup_insert_eq by done.
  rewrite list_lookup_insert_ne, HB by done.
  rewrite list_insert_insert_eq. unfold set_capacity, set_root; simpl.
  eexists _, (mkPQ (to_size_t (capacity A + capacity B)) p), (mkPQ 0 None).
  split; [done|]. simpl. split_and!; try done.
  - rewrite list_lookup_insert_ne by done. by rewrite list_lookup_insert_eq.
  - rewrite list_lookup_insert_eq; [done|]. by rewrite length_insert.
  - intros ?. by apply to_size_t_id.
  - by apply Hm.
Qed.

(** What [pop] does to a queue that owns a tree.  The new size is
    [capacity - 1] taken through an [int]. *)
Lemma pop_law fuel w this q l v r d :
  total_compare →
  objs w !! this = Some q → empty q = false →
  rep (mem w) (root q) (Node l v r) d →
  nodes l + nodes r < fuel →
  ∃ a n p σ',
    root q = Some a ∧ mem w !! a = Some n ∧
    MergeNode fuel (ls n) (rs n) (mem w) = Ret p σ' ∧
    pop fuel this w =
      Ret tt (mkWorld (delete a σ')
                (<[this := mkPQ (to_size_t (to_int (to_size_t (size q - 1)))) p]> (objs w))) ∧
    rep (delete a σ') p (Merge_spec l r) (d ∖ {[a]}) ∧
    dom (delete a σ') = dom (mem w) ∖ {[a]}.
Proof.
  intros Htot Hq He Hrep Hfuel. unfold pop. rewrite Hq, He.
  inversion Hrep as [|a v' pl pr l' r' dl dr Ea Hl Hr Hal Har Hlr]; subst.
  rewrite Ea. simpl.
  destruct (MergeNode_rep fuel _ _ _ _ _ _ _ Hl Hr)
    as [[_ Hlow]|[(p & σ' & E & Hdom & _ & _ & Hm)|[e E]]];
    [lia| |by apply MergeNode_no_throw in E].
  rewrite E.
  assert (is_Some (σ' !! a)) as [n' ->].
  { apply elem_of_dom. rewrite Hdom. apply elem_of_dom. eauto. }
  exists a, (mkNode v pl pr), p, σ'. split_and!; try done.
  - assert (({[a]} ∪ dl ∪ dr) ∖ {[a]} = dl ∪ dr) as -> by set_solver + Hal Har.
    eapply rep_frame; [by apply Hm|].
    intros x Hx. rewrite lookup_delete_ne; [done|]. set_solver + Hx Hal Har.
  - by rewrite dom_delete_L, Hdom.
Qed.

(** C6: [top] and [pop] throw exactly when [size()] is 0, what they throw
    is [container_is_empty], and nothing has changed then; a freshly
    constructed queue is such a queue; on a queue with a live root node and
    a size other than 0, [top] returns the value at the root and changes
    nothing. *)
Theorem empty_container_error fuel w this q :
  objs w !! this = Some q →
  (∀ e w', top this w = Throw e w' ↔ size q = 0%Z ∧ e = container_is_empty ∧ w' = w) ∧
  (∀ e w', pop fuel this w = Throw e w' ↔ size q = 0%Z ∧ e = container_is_empty ∧ w' = w) ∧
  (∀ n, size q ≠ 0%Z → deref (mem w) (root q) = Some n → top this w = Ret (value n) w) ∧
  (let k := length (objs w) in
   ∃ w1 q1, construct w = Ret k w1 ∧ objs w1 !! k = Some q1 ∧
     empty q1 = true ∧ size q1 = 0%Z ∧
     top k w1 = Throw container_is_empty w1 ∧
     pop fuel k w1 = Throw container_is_empty w1).
Proof.
  intros Hq. split_and!.
  - intros e w'. unfold top, empty, size. rewrite Hq.
    destruct (capacity q =? 0)%Z eqn:E.
    + apply Z.eqb_eq in E. split; [by intros [= <- <-]|by intros (_ & -> & ->)].
    + apply Z.eqb_neq in E. split; [|by intros [? _]].
      by destruct (deref (mem w) (root q)).
  - intros e w'. unfold pop, empty, size. rewrite Hq.
    destruct (capacity q =? 0)%Z eqn:E.
    + apply Z.eqb_eq in E. split; [by intros [= <- <-]|by intros (_ & -> & ->)].
    + apply Z.eqb_neq in E. split; [|by intros [? _]].
      destruct (root q) as [a|]; [|done].
      destruct (mem w !! a) as [n|]; [|done].
      destruct (MergeNode fuel (ls n) (rs n) (mem w)) as [p σ'|? ?| |]; try done.
      by destruct (σ' !! a).
  - intros n Hn Hd. unfold top, empty, size in *. rewrite Hq.
    apply Z.eqb_neq in Hn. by rewrite Hn, Hd.
  - simpl. eexists _, (mkPQ 0 None). split; [done|]. simpl.
    assert (Hk : (objs w ++ [mkPQ 0 None]) !! length (objs w) = Some (mkPQ 0 None)).
    { rewrite lookup_app_r by lia. by rewrite Nat.sub_diag. }
    split_and!; try done.
    + unfold top. simpl. by rewrite Hk.
    + unfold pop. simpl. by rewrite Hk.
Qed.

(** C7, as amended: when the merge step inside [pop] throws, [pop] returns
    and nothing at all has changed: the size is the same, no node has been
    released, and the old root node is still the root of the queue. *)
Theorem pop_failure_noop fuel w this q a n e σ1 :
  objs w !! this = Some q → empty q = false →
  root q = Some a → mem w !! a = Some n →
  MergeNode fuel (ls n) (rs n) (mem w) = Throw e σ1 →
  pop fuel this w = Ret tt w ∧ reaches (mem w) (root q) a.
Proof.
  intros Hq He Hr Ha Hm. pose proof (MergeNode_throw _ _ _ _ _ _ Hm) as ->.
  split.
  - unfold pop. rewrite Hq, He, Hr, Ha, Hm. by rewrite world_eta.
  - rewrite Hr. by econstructor.
Qed.

(** C10: [q = q] returns at once; the world is the same. *)
Theorem assign_self_noop fuel this w : assign fuel this this w = Ret tt w.
Proof. unfold assign. by rewrite decide_True. Qed.

(** The copy constructor applied to a queue without root: [copy] returns
    without writing, and [root] keeps the indeterminate value. *)
Lemma construct_copy_null fuel junk other w q :
  objs w !! other = Some q → root q = None →
  construct_copy (S fuel) junk other w =
    Ret (length (objs w)) (mkWorld (mem w) (objs w ++ [mkPQ (capacity q) junk])).
Proof. intros Hq Hr. unfold construct_copy. by rewrite Hq, Hr. Qed.

(** ** Calls complete *)

(** X19: on queues that own pairwise disjoint trees and whose sizes
    count their nodes, none above 2^31, every call of a member function
    with arguments in range returns or throws: it dereferences no null or
    dangling pointer, and fuel above twice the size of every tree is enough
    for it.  The constructor from a node pointer is left out, and the copy
    constructor is applied to non-empty queues. *)
Lemma step_progress fuel o w ts ds :
  shape w ts ds → all_counted (objs w) ts →
  sized w o → in_range w o →
  Forall (λ t, nodes t + nodes t + 1 < fuel) ts →
  ∃ w', lands (step fuel o w) w'.
Proof.
  intros Hs Hall [Hsmall Hok] Hin Hfuel.
  assert (Hget : ∀ i, i < length (objs w) →
            ∃ q t d, objs w !! i = Some q ∧ ts !! i = Some t ∧ ds !! i = Some d ∧
              rep (mem w) (root q) t d ∧ size q = Z.of_nat (nodes t) ∧
              nodes t + nodes t + 1 < fuel).
  { intros i Hi. destruct (lookup_lt_is_Some_2 _ _ Hi) as [q Hq].
    destruct (shape_lookup _ _ _ _ _ Hs Hq) as (t & d & Ht & Hd & Hrep).
    exists q, t, d. split_and!; try done.
    - by eapply (Forall2_lookup_lr _ _ _ _ _ _ Hall).
    - by eapply (Forall_lookup_1 _ _ _ _ Hfuel). }
  destruct o as [|junk rt c|junk j|i j|i|i e|i|i j]; simpl in *.
  - eexists. by left.
  - done.
  - destruct (Hget _ Hin) as (q & t & d & Hq & Ht & Hd & _ & _ & Hf).
    destruct (construct_copy_spec fuel junk _ _ _ _ _ _ _ Hs Hq Ht Hd)
      as [[_ Hlow]|(p & σ' & d' & -> & _)]; [lia|].
    eexists. by left.
  - destruct Hin as [Hi Hj]. destruct (decide (j = i)) as [->|Hji].
    { unfold assign. rewrite decide_True by done. eexists. by left. }
    destruct (Hget _ Hi) as (qi & ti & di & Hqi & Hti & Hdi & _ & _ & Hfi).
    destruct (Hget _ Hj) as (qj & tj & dj & Hqj & Htj & Hdj & _ & _ & Hfj).
    destruct (assign_spec fuel _ _ _ _ _ _ _ _ _ _ _ Hs Hji Hqi Hti Hdi Hqj Htj Hdj)
      as [[_ Hlow]|(p & σ' & d' & -> & _)]; [lia|].
    eexists. by left.
  - destruct (Hget _ Hin) as (q & t & d & Hq & Ht & Hd & Hrep & Hc & _).
    unfold top. rewrite Hq. unfold empty, size in *.
    destruct (capacity q =? 0)%Z eqn:E; [eexists; right; eauto|].
    apply Z.eqb_neq in E. destruct Hrep as [|a v pl pr l r dl dr Ea]; [simpl in Hc; lia|].
    simpl. rewrite Ea. eexists. by left.
  - destruct (Hget _ Hin) as (q & t & d & Hq & Ht & Hd & _ & _ & Hf).
    destruct (push_spec fuel _ e _ _ _ _ _ _ Hs Hq Ht Hd)
      as [[_ Hlow]|[[_ ->]|(p & σ' & -> & _)]]; [lia| |]; eexists; by left.
  - destruct (Hget _ Hin) as (q & t & d & Hq & Ht & Hd & Hrep & Hc & Hf).
    pose proof (pop_spec fuel _ _ _ _ _ _ _ Hs Hq Ht Hd) as Hpop.
    unfold empty, size in *.
    destruct (capacity q =? 0)%Z eqn:E; [eexists; right; eauto|].
    apply Z.eqb_neq in E. destruct t as [|l v r]; [simpl in Hc; lia|].
    simpl in Hf.
    destruct Hpop as [[_ Hlow]|[[_ ->]|(p & σ' & a & -> & _)]]; [lia| |];
      eexists; by left.
  - destruct Hin as [Hi Hj].
    destruct (Hget _ Hi) as (qi & ti & di & Hqi & Hti & Hdi & _ & _ & Hfi).
    destruct (decide (i = j)) as [<-|Hij].
    { destruct (merge_self_spec fuel _ _ _ _ _ _ _ Hs Hqi Hti Hdi)
        as [[_ Hlow]|[[_ ->]|(σ' & -> & _)]]; [lia| |]; eexists; by left. }
    destruct (Hget _ Hj) as (qj & tj & dj & Hqj & Htj & Hdj & _ & _ & Hfj).
    destruct (merge_spec fuel _ _ _ _ _ _ _ _ _ _ _ Hs Hij Hqi Hti Hdi Hqj Htj Hdj)
      as [[_ Hlow]|[[_ ->]|(p & σ' & -> & _)]]; [lia| |]; eexists; by left.
Qed.

(** ** Mutating a copy
    Calls of [push] and [pop] on one queue leave every other queue as it
    was: its size, its tree and so what [top] returns. *)

Lemma top_of_rep w a qa l v r d :
  objs w !! a = Some qa → rep (mem w) (root qa) (Node l v r) d →
  top a w = if empty qa then Throw container_is_empty w else Ret v w.
Proof.
  intros Hq Hrep. unfold top. rewrite Hq. destruct (empty qa); [done|].
  inversion Hrep as [|x v' pl pr l' r' dl dr Ex]; subst. simpl. by rewrite Ex.
Qed.

Lemma mutations_frame fuel c a w ops w' ts ds qa :
  shape w ts ds → a ≠ c → objs w !! a = Some qa →
  runs fuel (touches_only c) w ops w' →
  objs w' !! a = Some qa ∧ ∀ v, top a w = Ret v w → top a w' = Ret v w'.
Proof.
  intros Hs Hac Hq Hruns.
  destruct (shape_lookup _ _ _ _ _ Hs Hq) as (ta & da & Hta & Hda & Hrep).
  destruct (runs_invariant fuel (touches_only c)
              (λ qs ts, qs !! a = Some qa ∧ ts !! a = Some ta))
    with (w := w) (ops := ops) (w' := w') (ts := ts) (ds := ds)
    as (ts' & ds' & Hs' & Hq' & Hta'); [|done|done|done|].
  { intros w0 o ts0 ds0 _ [Hq0 Ht0] Hok. split; [by destruct o|].
    intros qs' ts1 Htr.
    destruct Htr; simpl in Hok; try done; subst;
      by rewrite !list_lookup_insert_ne by done. }
  split; [done|]. intros v Htop.
  destruct (shape_lookup _ _ _ _ _ Hs' Hq') as (ta' & da' & Hta'' & _ & Hrep').
  rewrite Hta' in Hta''. injection Hta'' as <-.
  destruct ta as [|l x r].
  { inversion Hrep as [Hroot| ]. unfold top in Htop. rewrite Hq in Htop.
    destruct (empty qa); [done|]. by rewrite <-Hroot in Htop. }
  rewrite (top_of_rep _ _ _ _ _ _ _ Hq Hrep) in Htop.
  rewrite (top_of_rep _ _ _ _ _ _ _ Hq' Hrep').
  destruct (empty qa); [done|]. by injection Htop as ->.
Qed.

(** After [c = a] the queue [c] owns a tree equal to the tree of [a], of
    the same size, made of nodes of its own; calls of [push] and [pop]
    on [c] then leave [a] as it was. *)
Lemma assign_independent fuel c a w w1 ops w' ts ds qa ta :
  shape w ts ds → a ≠ c → c < length (objs w) →
  objs w !! a = Some qa → ts !! a = Some ta →
  lands (assign fuel c a w) w1 →
  runs fuel (touches_only c) w1 ops w' →
  (∃ qc ts1 ds1, shape w1 ts1 ds1 ∧ objs w1 !! c = Some qc ∧ size qc = size qa ∧
     ts1 !! c = Some ta ∧ ts1 !! a = Some ta) ∧
  objs w' !! a = Some qa ∧
  ∀ v, top a w = Ret v w → top a w' = Ret v w'.
Proof.
  intros Hs Hac Hc Hq Hta Hland Hruns.
  destruct (lookup_lt_is_Some_2 _ _ Hc) as [qc Hqc].
  destruct (shape_lookup _ _ _ _ _ Hs Hqc) as (tc & dc & Htc & Hdc & _).
  destruct (shape_lookup _ _ _ _ _ Hs Hq) as (ta' & da & Hta' & Hda & Hrep).
  rewrite Hta in Hta'. injection Hta' as <-.
  destruct (assign_spec fuel _ _ _ _ _ _ _ _ _ _ _ Hs Hac Hqc Htc Hdc Hq Hta Hda)
    as [[E _]|(p & σ' & d' & E & Hs1)];
    rewrite E in Hland; [by destruct Hland as [|[? ?]]|].
  destruct Hland as [[= <-]|[? [=]]]. simpl in Hs1.
  assert (Hq1 : objs (mkWorld σ' (<[c:=mkPQ (capacity qa) p]> (objs w))) !! a = Some qa).
  { simpl. by rewrite list_lookup_insert_ne. }
  destruct (mutations_frame _ _ _ _ _ _ _ _ _ Hs1 Hac Hq1 Hruns) as [Hq' Htop'].
  split_and!.
  - eexists _, _, _. split; [exact Hs1|]. simpl. split_and!.
    + by apply list_lookup_insert_eq.
    + done.
    + apply list_lookup_insert_eq. by rewrite (shape_ts _ _ _ Hs).
    + by rewrite list_lookup_insert_ne.
  - done.
  - intros v Htop. apply Htop'.
    pose proof (shape_rep _ _ _ Hs1 a qa ta da) as Hrep1. simpl in Hrep1.
    rewrite !list_lookup_insert_ne in Hrep1 by done.
    specialize (Hrep1 Hq Hta Hda).
    destruct ta as [|l x r].
    { inversion Hrep as [Hroot| ]. unfold top in Htop. rewrite Hq in Htop.
      destruct (empty qa); [done|]. by rewrite <-Hroot in Htop. }
    rewrite (top_of_rep _ _ _ _ _ _ _ Hq Hrep) in Htop.
    rewrite (top_of_rep _ _ _ _ _ _ _ Hq1 Hrep1).
    destruct (empty qa); [done|]. by injection Htop as ->.
Qed.

(** X20: after [priority_queue c(a)] for a queue [a] that has a root, the
    new queue [c] owns a tree equal to the tree of [a], of the same size,
    made of nodes of its own; calls of [push] and [pop] on [c] then leave [a]
    as it was. *)
Lemma copy_construct_independent fuel junk a w w1 ops w' ts ds qa ta :
  shape w ts ds →
  objs w !! a = Some qa → ts !! a = Some ta → is_Some (root qa) →
  lands (forget (construct_copy fuel junk a w)) w1 →
  runs fuel (touches_only (length (objs w))) w1 ops w' →
  (∃ qc ts1 ds1, shape w1 ts1 ds1 ∧ objs w1 !! length (objs w) = Some qc ∧
     size qc = size qa ∧ ts1 !! length (objs w) = Some ta ∧ ts1 !! a = Some ta) ∧
  objs w' !! a = Some qa ∧
  ∀ v, top a w = Ret v w → top a w' = Ret v w'.
Proof.
  intros Hs Hq Hta Hroot Hland Hruns.
  pose proof (lookup_lt_Some _ _ _ Hq) as Ha.
  destruct (shape_lookup _ _ _ _ _ Hs Hq) as (ta' & da & Hta' & Hda & Hrep).
  rewrite Hta in Hta'. injection Hta' as <-.
  destruct (construct_copy_spec fuel junk _ _ _ _ _ _ _ Hs Hq Hta Hda)
    as [[E _]|(p & σ' & d' & E & _ & Hs1)];
    rewrite E in Hland; simpl in Hland; [by destruct Hland as [|[? ?]]|].
  destruct Hland as [[= <-]|[? [=]]]. specialize (Hs1 (or_introl Hroot)).
  assert (Hac : a ≠ length (objs w)) by lia.
  assert (Hq1 : objs (mkWorld σ' (objs w ++ [mkPQ (capacity qa) p])) !! a = Some qa).
  { simpl. by rewrite lookup_app_l. }
  destruct (mutations_frame _ _ _ _ _ _ _ _ _ Hs1 Hac Hq1 Hruns) as [Hq' Htop'].
  split_and!.
  - eexists _, _, _. split; [exact Hs1|]. simpl. split_and!.
    + rewrite lookup_app_r by lia. by rewrite Nat.sub_diag.
    + done.
    + rewrite lookup_app_r by (rewrite (shape_ts _ _ _ Hs); lia).
      by rewrite (shape_ts _ _ _ Hs), Nat.sub_diag.
    + rewrite lookup_app_l; [done|]. by rewrite (shape_ts _ _ _ Hs).
  - done.
  - intros v Htop. apply Htop'.
    pose proof (shape_ts _ _ _ Hs) as Hlt. pose proof (shape_ds _ _ _ Hs) as Hld.
    assert (Hrep1 : rep σ' (root qa) ta da).
    { apply (shape_rep _ _ _ Hs1 a qa ta da); simpl; by rewrite lookup_app_l by lia. }
    destruct ta as [|l x r]; [inversion Hrep as [Hr0|]; rewrite <-Hr0 in Hroot;
                              by destruct Hroot|].
    rewrite (top_of_rep _ _ _ _ _ _ _ Hq Hrep) in Htop.
    rewrite (top_of_rep _ _ _ _ _ _ _ Hq1 Hrep1).
    destruct (empty qa); [done|]. by injection Htop as ->.
Qed.

(** ** Queues of any size
    A queue that holds [n] elements is reached by [n] calls of [push]. *)

Lemma runs_app fuel ok w ops w1 ops' w2 :
  runs fuel ok w ops w1 → runs fuel ok w1 ops' w2 → runs fuel ok w (ops ++ ops') w2.
Proof.
  induction 1 as [|w o wa ops wb Hok Hland _ IH]; intros H2; [done|].
  simpl. econstructor; eauto.
Qed.

Lemma shape_single (σ : store) q t d :
  rep σ (root q) t d → shape (mkWorld σ [q]) [t] [d].
Proof.
  intros Hrep. split; simpl; try done.
  - intros [|i] ? ? ? Hq Ht Hd; simpl in *; [by simplify_eq|done].
  - intros [|i] [|j] ? ? Hij Hi Hj; simpl in *; done.
Qed.

Lemma pushes_reach fuel v n :
  total_compare → n < fuel → (Z.of_nat n < 2 ^ 64)%Z →
  ∃ σ p t d,
    runs fuel any_call init (Construct :: replicate n (Push 0 v))
      (mkWorld σ [mkPQ (Z.of_nat n) p]) ∧
    rep σ p t d ∧ nodes t = n.
Proof.
  intros Htot. induction n as [|n IH]; intros Hfuel Hn.
  { exists ∅, None, Leaf, ∅. split_and!; [|constructor|done].
    econstructor; [done|by left|constructor]. }
  destruct IH as (σ & p & t & d & Hruns & Hrep & Hnodes); [lia|lia|].
  pose proof (shape_single σ (mkPQ (Z.of_nat n) p) t d Hrep) as Hs.
  destruct (push_spec fuel 0 v _ _ _ _ _ _ Hs eq_refl eq_refl eq_refl)
    as [[_ Hlow]|[[Hthrow _]|(r & σ' & E & _ & Hs')]]; [lia|done|].
  simpl in E, Hs'.
  exists σ', r, (Merge_spec t (Node Leaf v Leaf)), (d ∪ {[new_addr σ]}). split_and!.
  - rewrite replicate_S_end, app_comm_cons. eapply runs_app; [exact Hruns|].
    econstructor; [done| |constructor]. left. simpl. rewrite E.
    replace (Z.of_nat (S n)) with (Z.of_nat n + 1)%Z by lia.
    by rewrite to_size_t_id by lia.
  - by apply (shape_rep _ _ _ Hs' 0 (mkPQ (to_size_t (Z.of_nat n + 1)) r)).
  - rewrite Merge_spec_nodes. simpl. lia.
Qed.

Lemma pop_after_pushes fuel v n :
  total_compare → n < fuel → (0 < Z.of_nat n < 2 ^ 64)%Z →
  ∃ w w' q q',
    runs fuel any_call init (Construct :: replicate n (Push 0 v)) w ∧
    objs w !! 0 = Some q ∧ size q = Z.of_nat n ∧
    pop fuel 0 w = Ret tt w' ∧
    objs w' !! 0 = Some q' ∧
    size q' = to_size_t (to_int (to_size_t (Z.of_nat n - 1))).
Proof.
  intros Htot Hfuel Hn.
  destruct (pushes_reach fuel v n Htot Hfuel) as (σ & p & t & d & Hruns & Hrep & Hnodes);
    [lia|].
  destruct t as [|l x r]; [simpl in Hnodes; lia|].
  destruct (pop_law fuel (mkWorld σ [mkPQ (Z.of_nat n) p]) 0 (mkPQ (Z.of_nat n) p) l x r d)
    as (a & nd & p' & σ' & _ & _ & _ & E & _); try done.
  { unfold empty. simpl. apply Z.eqb_neq. lia. }
  { simpl in Hnodes. lia. }
  eexists _, _, _, _. split; [exact Hruns|]. split; [done|]. split; [done|].
  split; [exact E|]. split; done.
Qed.

(** ** Running sequences of calls *)

Lemma exec_if_runs (okb : world → op → bool) (ok : world → op → Prop) fuel ops w w' :
  (∀ w o, okb w o = true → ok w o) →
  exec_if okb fuel ops w = Some w' → runs fuel ok w ops w'.
Proof.
  intros Hok. revert w; induction ops as [|o ops IH]; intros w; simpl.
  { intros [= ->]. constructor. }
  destruct (okb w o) eqn:Eok; [|done].
  destruct (step fuel o w) as [[] w1|e w1| |] eqn:E; try done; intros Hex.
  - econstructor; [by apply Hok|by left|by apply IH].
  - econstructor; [by apply Hok|right; eauto|by apply IH].
Qed.

Lemma heap_opb_ok w o : heap_opb w o = true → heap_op w o.
Proof. by destruct o. Qed.


Lemma sparesb_ok k w o : sparesb k w o = true → spares k w o.
Proof.
  unfold spares. destruct o as [|junk rt c|[a|] j|i j|i|i e|i|i j]; simpl; try done;
    rewrite ?andb_true_iff, ?negb_true_iff, ?Nat.eqb_neq; try (by auto); tauto.
Qed.

Lemma tidyb_ok w o : tidyb w o = true → tidy w o.
Proof.
  unfold tidy. destruct o as [|junk rt c|[a|] j|i j|i|i e|i|i j]; simpl; try done;
    rewrite ?negb_true_iff, ?Nat.eqb_neq; by auto.
Qed.

(** * Further properties of the code *)

(** ** The node functions *)

(** X1: [ClearNode] on a tree, with more fuel than the tree has nodes,
    returns with the reference set to null, has released exactly the nodes
    of the tree, and has left every other node as it was. *)
Theorem ClearNode_frees_tree fuel p σ t d :
  rep σ p t d → nodes t < fuel →
  ∃ σ', ClearNode fuel p σ = Ret None σ' ∧
    dom σ' = dom σ ∖ d ∧ (∀ x, x ∉ d → σ' !! x = σ !! x).
Proof.
  intros Hrep Hfuel.
  destruct (ClearNode_rep fuel _ _ _ _ Hrep) as [[_ Hlow]|H]; [lia|done].
Qed.

(** X2: [copy] is a deep copy.  For a null source the reference keeps its
    value and nothing is allocated.  Otherwise the reference ends up
    pointing to a tree equal to the source tree whose nodes are all newly
    allocated; every node that was live before is unchanged, so the source
    tree is still there. *)
Theorem copy_is_deep fuel one p σ t d :
  rep σ p t d → nodes t < fuel →
  ∃ q σ' d',
    copy fuel one p σ = Ret q σ' ∧
    (p = None → q = one ∧ σ' = σ) ∧
    (is_Some p → rep σ' q t d' ∧ rep σ' p t d) ∧
    d' ## dom σ ∧ dom σ' = dom σ ∪ d' ∧
    (∀ x, x ∈ dom σ → σ' !! x = σ !! x).
Proof.
  intros Hrep Hfuel.
  destruct (copy_rep fuel one _ _ _ _ Hrep)
    as [[_ Hlow]|(q & σ' & d' & E & Hnull & Hq & Hdisj & Hdom & Hfr)]; [lia|].
  exists q, σ', d'. split_and!; try done.
  intros Hp. split; [by apply Hq; left|].
  eapply rep_frame; [exact Hrep|]. intros x Hx. apply Hfr.
  by apply (rep_dom _ _ _ _ Hrep).
Qed.

(** X3: [MergeNode] only relinks.  Whenever it returns, on any store, the
    same addresses are live as before, every node holds the value it held,
    and the pointer returned is one of the two arguments. *)
Theorem MergeNode_relinks_only fuel a b σ p σ' :
  MergeNode fuel a b σ = Ret p σ' →
  dom σ' = dom σ ∧ (∀ x, value <$> σ' !! x = value <$> σ !! x) ∧ (p = a ∨ p = b).
Proof.
  revert a b p σ'; induction fuel as [|fuel IH]; intros a b p σ'; simpl; [done|].
  destruct a as [pa|], b as [pb|]; try (intros [= <- <-]; by auto).
  destruct (σ !! pa) as [na|] eqn:Ea; [|done].
  destruct (σ !! pb) as [nb|] eqn:Eb; [|done].
  destruct (node_lt na nb) as [c|]; [|done].
  assert (Hstep : ∀ x nx y,
            σ !! x = Some nx →
            (do (r, σ1) ← MergeNode fuel (rs nx) (Some y) σ;
             match σ1 !! x with
             | Some n1 => Ret (Some x) (<[x:=swap_sons (set_rs n1 r)]> σ1)
             | None => Fault
             end) = Ret p σ' →
            dom σ' = dom σ ∧ (∀ z, value <$> σ' !! z = value <$> σ !! z) ∧ p = Some x).
  { intros x nx y Ex.
    destruct (MergeNode fuel (rs nx) (Some y) σ) as [r σ1|? ?| |] eqn:E; simpl; try done.
    destruct (IH _ _ _ _ E) as (Hdom & Hval & _).
    destruct (σ1 !! x) as [n1|] eqn:E1; [|done]. intros [= <- <-]. split_and!; [|
    |done].
    - rewrite dom_insert_L, Hdom. assert (x ∈ dom σ) by (apply elem_of_dom; eauto).
      set_solver.
    - intros z. destruct (decide (z = x)) as [->|].
      + rewrite lookup_insert_eq. simpl. specialize (Hval x). by rewrite E1 in Hval.
      + by rewrite lookup_insert_ne. }
  destruct c.
  - rewrite Eb. intros H. destruct (Hstep _ _ _ Eb H) as (? & ? & ->). auto.
  - rewrite Ea. intros H. destruct (Hstep _ _ _ Ea H) as (? & ? & ->). auto.
Qed.

Lemma Traverse_rep fuel p σ t d :
  rep σ p t d →
  starved (Traverse fuel p σ) fuel (nodes t) ∨ Traverse fuel p σ = Ret (elems t) σ.
Proof.
  revert p t d; induction fuel as [|fuel IH]; intros p t d Hrep;
    [left; split; [done|lia]|].
  destruct Hrep as [|a v pl pr l r dl dr Ea Hl Hr Hal Har Hlr]; simpl; [by right|].
  rewrite Ea. simpl.
  assert (Hsub : ∀ q s ds, rep σ q s ds →
            starved (match q with None => Ret [] σ | Some _ => Traverse fuel q σ end)
                    fuel (nodes s) ∨
            match q with None => Ret [] σ | Some _ => Traverse fuel q σ end
              = Ret (elems s) σ).
  { intros q s ds Hq. destruct q as [x|]; [by eapply IH|].
    right. by inversion Hq. }
  destruct (Hsub _ _ _ Hl) as [[-> Hlow]| ->]; [left; split; [done|lia]|]. simpl.
  destruct (Hsub _ _ _ Hr) as [[-> Hlow]| ->]; [left; split; [done|lia]|]. by right.
Qed.

(** X4: [traverse] prints the elements of the queue, each once, in
    pre-order (a node, then its left subtree, then its right subtree), and
    writes nothing to the store; it prints nothing when [size()] is 0.  The
    first value printed is the one [top] returns. *)
Theorem traverse_prints_elements fuel w this q t d :
  objs w !! this = Some q → rep (mem w) (root q) t d → nodes t < fuel →
  Traverse fuel (root q) (mem w) = Ret (elems t) (mem w) ∧
  traverse fuel this w = Ret (if empty q then [] else elems t) w ∧
  (∀ v, top this w = Ret v w → head (elems t) = Some v).
Proof.
  intros Hq Hrep Hfuel.
  destruct (Traverse_rep fuel _ _ _ _ Hrep) as [[_ Hlow]|E]; [lia|].
  split_and!; [done| |].
  - unfold traverse. rewrite Hq. destruct (empty q); [done|].
    by rewrite E, world_eta.
  - intros v. unfold top. rewrite Hq. destruct (empty q); [done|].
    destruct Hrep as [|a x pl pr l r dl dr Ea]; [done|]. simpl. rewrite Ea.
    by intros [= <-].
Qed.

(** ** push, top and pop on one queue *)

Lemma push_rep fuel w this q t d e :
  objs w !! this = Some q → rep (mem w) (root q) t d →
  (push fuel this e w = OutOfFuel ∧ fuel ≤ nodes t + 1) ∨
  (¬ total_compare ∧ push fuel this e w = Ret tt w) ∨
  ∃ r σ',
    push fuel this e w =
      Ret tt (mkWorld σ' (<[this := mkPQ (to_size_t (size q + 1)) r]> (objs w))) ∧
    rep σ' r (Merge_spec t (Node Leaf e Leaf)) (d ∪ {[new_addr (mem w)]}) ∧
    dom σ' = dom (mem w) ∪ {[new_addr (mem w)]} ∧
    (∀ x, x ∈ dom (mem w) → x ∉ d → σ' !! x = mem w !! x).
Proof.
  intros Hq Hrep. unfold push. rewrite Hq.
  pose proof (new_addr_fresh (mem w)) as Hnew. set (a := new_addr (mem w)) in *.
  set (σ0 := <[a := mkNode e None None]> (mem w)).
  assert (Hadom : a ∉ dom (mem w)) by (by apply not_elem_of_dom).
  assert (Hsub : ∀ x, x ∈ dom (mem w) → σ0 !! x = mem w !! x).
  { intros x Hx. unfold σ0. rewrite lookup_insert_ne; [done|]. by intros <-. }
  pose proof (rep_dom _ _ _ _ Hrep) as Hdd.
  assert (Hrep0 : rep σ0 (root q) t d).
  { eapply rep_frame; [exact Hrep|]. intros x Hx. apply Hsub. by apply Hdd. }
  assert (Hnode : rep σ0 (Some a) (Node Leaf e Leaf) {[a]}).
  { apply rep_singleton. apply lookup_insert_eq. }
  destruct (MergeNode_rep fuel _ _ _ _ _ _ _ Hrep0 Hnode)
    as [[-> Hlow]|[(r & σ' & -> & Hdom & Hfr & _ & Hm)|[ex Hex]]].
  - left. split; [done|]. simpl in Hlow. lia.
  - right; right. exists r, σ'. split_and!; [done| | |].
    + apply Hm. set_solver + Hadom Hdd.
    + rewrite Hdom. unfold σ0. rewrite dom_insert_L. set_solver +.
    + intros x Hx Hxd. rewrite Hfr by set_solver + Hx Hxd Hadom. by apply Hsub.
  - right; left. split.
    { intros Htot. by eapply MergeNode_no_throw. }
    rewrite Hex. unfold σ0. rewrite lookup_insert_eq.
    rewrite delete_insert_id by done. by rewrite world_eta.
Qed.

(** X5: [push] on a queue that owns a tree, with a comparator that does
    not throw, adds exactly the pushed value: the new tree holds the old
    elements and [e], the size is the old size plus one (in [size_t]), one
    node has been allocated and no node outside the queue has changed. *)
Theorem push_adds_element fuel w this q t d e :
  total_compare →
  objs w !! this = Some q → rep (mem w) (root q) t d → nodes t + 1 < fuel →
  ∃ w' q' t' d',
    push fuel this e w = Ret tt w' ∧
    objs w' !! this = Some q' ∧ size q' = to_size_t (size q + 1) ∧
    rep (mem w') (root q') t' d' ∧ elems t' ≡ₚ e :: elems t ∧
    dom (mem w') = dom (mem w) ∪ {[new_addr (mem w)]} ∧
    (new_addr (mem w) ∉ dom (mem w)) ∧
    (∀ x, x ∈ dom (mem w) → x ∉ d → mem w' !! x = mem w !! x) ∧
    (∀ k, k ≠ this → objs w' !! k = objs w !! k).
Proof.
  intros Htot Hq Hrep Hfuel.
  destruct (push_rep fuel _ _ _ _ _ e Hq Hrep)
    as [[_ Hlow]|[[Hthrow _]|(r & σ' & E & Hr & Hdom & Hfr)]]; [lia|done|].
  eexists _, (mkPQ (to_size_t (size q + 1)) r), _, _.
  split; [exact E|]. simpl. split_and!; try done.
  - apply list_lookup_insert_eq. by eapply lookup_lt_Some.
  - rewrite Merge_spec_elems. simpl. symmetry. apply Permutation_cons_append.
  - apply not_elem_of_dom, new_addr_fresh.
  - intros k Hk. by rewrite list_lookup_insert_ne.
Qed.

Lemma Merge_spec_single t e :
  ∃ l r, Merge_spec t (Node Leaf e Leaf) = Node l (top_with t e) r.
Proof.
  destruct t as [|l v r]; simp Merge_spec; [by eexists _, _|].
  simpl. destruct (lessb v e); by eexists _, _.
Qed.

(** X6: what [top] returns after [push(e)]: [e] when the queue had no
    root or the old top is strictly before [e], the old top otherwise
    (also when the two are equivalent).  When the size wraps to 0, [top]
    throws. *)
Theorem top_after_push fuel w this q t d e :
  total_compare →
  objs w !! this = Some q → rep (mem w) (root q) t d → nodes t + 1 < fuel →
  ∃ w',
    push fuel this e w = Ret tt w' ∧
    top this w' =
      if (to_size_t (size q + 1) =? 0)%Z then Throw container_is_empty w'
      else Ret (top_with t e) w'.
Proof.
  intros Htot Hq Hrep Hfuel.
  destruct (push_rep fuel _ _ _ _ _ e Hq Hrep)
    as [[_ Hlow]|[[Hthrow _]|(r & σ' & E & Hr & Hdom & Hfr)]]; [lia|done|].
  eexists. split; [exact E|].
  destruct (Merge_spec_single t e) as (l' & r' & Et). rewrite Et in Hr.
  erewrite top_of_rep; [|apply list_lookup_insert_eq; by eapply lookup_lt_Some|exact Hr].
  done.
Qed.

(** X7: a comparator that throws during [push] leaves no trace: the new
    node is deleted again, and the store and every queue are exactly as
    before the call. *)
Theorem push_failure_noop fuel w this q e ex σ1 :
  objs w !! this = Some q →
  MergeNode fuel (root q) (Some (new_addr (mem w)))
    (<[new_addr (mem w) := mkNode e None None]> (mem w)) = Throw ex σ1 →
  push fuel this e w = Ret tt w.
Proof.
  intros Hq Hm. pose proof (MergeNode_throw _ _ _ _ _ _ Hm) as ->.
  unfold push. rewrite Hq, Hm, lookup_insert_eq.
  rewrite delete_insert_id by apply new_addr_fresh. by rewrite world_eta.
Qed.

(** X8: [pop] removes the value [top] returns and nothing else: the
    elements before are the old top and the elements after; the nodes of the
    new tree are nodes of the old one, and the other queues are as before. *)
Theorem pop_removes_top fuel w this q l v r d :
  total_compare →
  objs w !! this = Some q → empty q = false →
  rep (mem w) (root q) (Node l v r) d →
  nodes l + nodes r < fuel →
  ∃ w' q' t' d',
    top this w = Ret v w ∧
    pop fuel this w = Ret tt w' ∧
    objs w' !! this = Some q' ∧
    rep (mem w') (root q') t' d' ∧
    elems (Node l v r) ≡ₚ v :: elems t' ∧
    nodes (Node l v r) = S (nodes t') ∧
    d' ⊆ d ∧
    (∀ k, k ≠ this → objs w' !! k = objs w !! k).
Proof.
  intros Htot Hq He Hrep Hfuel.
  destruct (pop_law fuel _ _ _ _ _ _ _ Htot Hq He Hrep Hfuel)
    as (a & n & p & σ' & Hroot & Ha & _ & E & Hrep' & _).
  eexists _, (mkPQ _ p), _, _. split_and!.
  - rewrite (top_of_rep _ _ _ _ _ _ _ Hq Hrep). by rewrite He.
  - exact E.
  - simpl. apply list_lookup_insert_eq. by eapply lookup_lt_Some.
  - exact Hrep'.
  - simpl. by rewrite Merge_spec_elems.
  - simpl. by rewrite Merge_spec_nodes.
  - set_solver +.
  - intros k Hk. simpl. by rewrite list_lookup_insert_ne.
Qed.

(** X9: a round trip.  Pushing a value onto a queue without root, or a
    value that the top is strictly before, and popping it again restores
    the queue and the store exactly; in between, [top] returns the value
    pushed.  The size has to stay below 2^31. *)
Theorem push_pop_restores fuel w this q e :
  objs w !! this = Some q → (0 ≤ size q < 2 ^ 31)%Z → 1 < fuel →
  (root q = None ∨
   ∃ a n, root q = Some a ∧ mem w !! a = Some n ∧ Compare (value n) e = Some true) →
  ∃ w1,
    push fuel this e w = Ret tt w1 ∧
    top this w1 = Ret e w1 ∧
    pop fuel this w1 = Ret tt w.
Proof.
  intros Hq Hsize Hfuel Hroot. unfold size in Hsize.
  destruct fuel as [|[|fuel]]; [lia|lia|].
  pose proof (new_addr_fresh (mem w)) as Hnew.
  pose proof (lookup_lt_Some _ _ _ Hq) as Hlt.
  assert (Hcap : to_size_t (capacity q + 1) = (capacity q + 1)%Z)
    by (apply to_size_t_id; lia).
  assert (Hback : to_size_t (to_int (to_size_t (capacity q + 1 - 1))) = capacity q).
  { replace (capacity q + 1 - 1)%Z with (capacity q) by lia.
    rewrite (to_size_t_id (capacity q)) by lia.
    rewrite to_int_id by lia. apply to_size_t_id. lia. }
  assert (Hne : ((capacity q + 1) =? 0)%Z = false) by (apply Z.eqb_neq; lia).
  destruct q as [c rt]. simpl in *.
  destruct Hroot as [->|(a & n & -> & Ha & Hc)].
  - eexists. unfold push. rewrite Hq. simpl. split; [done|]. split.
    + unfold top, empty. simpl. rewrite list_lookup_insert_eq by done. simpl.
      rewrite Hcap, Hne. simpl. by rewrite lookup_insert_eq.
    + unfold pop, empty. simpl. rewrite list_lookup_insert_eq by done. simpl.
      rewrite Hcap, Hne. simpl. rewrite lookup_insert_eq. simpl.
      rewrite lookup_insert_eq, Hback.
      rewrite delete_insert_id by done.
      rewrite list_insert_insert_eq, list_insert_id by done. by destruct w.
  - assert (Hna : new_addr (mem w) ≠ a) by congruence.
    eexists. unfold push. rewrite Hq.
    cbn [MergeNode root]. rewrite lookup_insert_eq, (lookup_insert_ne _ _ _ _ Hna), Ha.
    unfold node_lt. cbn [value]. rewrite Hc, lookup_insert_eq. cbn [rs bind].
    rewrite lookup_insert_eq. unfold set_rs, swap_sons. cbn [value ls rs].
    rewrite insert_insert_eq.
    split; [done|]. split.
    + unfold top, empty. cbn [objs mem]. rewrite list_lookup_insert_eq by done.
      cbn [capacity root deref]. rewrite Hcap, Hne. by rewrite lookup_insert_eq.
    + unfold pop, empty. cbn [objs mem]. rewrite list_lookup_insert_eq by done.
      cbn [capacity root]. rewrite Hcap, Hne, lookup_insert_eq.
      cbn [ls rs MergeNode]. rewrite lookup_insert_eq, Hback.
      rewrite delete_insert_id by done.
      rewrite list_insert_insert_eq, list_insert_id by done. by destruct w.
Qed.

Lemma drain_rep n : ∀ fuel w this q t d,
  total_compare → asymmetric → negatively_transitive →
  objs w !! this = Some q → rep (mem w) (root q) t d →
  heap_ordered t = true → size q = Z.of_nat (nodes t) → nodes t = n →
  (Z.of_nat n ≤ 2 ^ 31)%Z → n < fuel →
  ∃ vs w',
    drain fuel n this w = Ret vs w' ∧
    vs ≡ₚ elems t ∧
    StronglySorted (λ x y, lessb x y = false) vs ∧
    objs w' = <[this := mkPQ 0 None]> (objs w) ∧
    dom (mem w') = dom (mem w) ∖ d.
Proof.
  induction n as [|n IH]; intros fuel w this q t d Htot Has Hnt Hq Hrep Ho Hsize Hn Hle Hfuel.
  - destruct t; [|done]. inversion Hrep as [Hroot|]; subst.
    exists [], w. simpl. split_and!; [done|done|constructor| |set_solver +].
    symmetry. apply list_insert_id. rewrite Hq. f_equal.
    destruct q as [c rt]. unfold size in Hsize. simpl in *. by subst.
  - destruct t as [|l v r]; [done|]. simpl in Hn. injection Hn as Hn.
    assert (He : empty q = false).
    { unfold empty, size in *. apply Z.eqb_neq. simpl in Hsize. lia. }
    destruct (pop_law fuel _ _ _ _ _ _ _ Htot Hq He Hrep)
      as (a & nd & p & σ' & Hroot & Ha & _ & E & Hrep' & Hdom'); [lia|].
    assert (Hsz : to_size_t (to_int (to_size_t (size q - 1))) = Z.of_nat n).
    { rewrite Hsize. simpl nodes.
      replace (Z.of_nat (S (nodes l + nodes r)) - 1)%Z with (Z.of_nat n) by lia.
      rewrite (to_size_t_id (Z.of_nat n)) by lia.
      rewrite to_int_id by lia. apply to_size_t_id. lia. }
    rewrite Hsz in E.
    pose proof Ho as Ho'. simpl in Ho'. rewrite !andb_true_iff in Ho'.
    destruct Ho' as [[[Hl Hr] Hol] Hor].
    pose proof (lookup_lt_Some _ _ _ Hq) as Hlt.
    destruct (IH fuel (mkWorld (delete a σ') (<[this:=mkPQ (Z.of_nat n) p]> (objs w)))
                this (mkPQ (Z.of_nat n) p) (Merge_spec l r) (d ∖ {[a]}))
      as (vs & w' & Ed & Hperm & Hsorted & Hobjs & Hdom); try done.
    { simpl. by apply list_lookup_insert_eq. }
    { by apply heap_ordered_Merge_spec. }
    { unfold size. simpl. rewrite Merge_spec_nodes. lia. }
    { rewrite Merge_spec_nodes. lia. }
    { lia. }
    { lia. }
    exists (v :: vs), w'. split_and!.
    + simpl. rewrite (top_of_rep _ _ _ _ _ _ _ Hq Hrep), He. simpl.
      rewrite E. simpl. by rewrite Ed.
    + rewrite Hperm, Merge_spec_elems. done.
    + constructor; [done|]. apply Forall_forall. intros y Hy.
      apply (tops_all v (Node l v r)); try done.
      * simpl. destruct (lessb v v) eqn:Evv; [|done].
        by rewrite (lessb_asym _ _ Has Evv) in Evv.
      * rewrite Hperm, Merge_spec_elems in Hy. simpl. by right.
    + rewrite Hobjs. simpl. by rewrite list_insert_insert_eq.
    + rewrite Hdom. simpl. rewrite Hdom'.
      assert (a ∈ d).
      { inversion Hrep; subst. rewrite Hroot in *. simplify_eq. set_solver +. }
      apply set_eq. intros x. rewrite !elem_of_difference, elem_of_singleton.
      split; [intros [[? ?] Hx]; split; [done|]; intros ?; apply Hx; split; [done|]
             |intros [? ?]; split_and!; try done].
      * intros ->. done.
      * by intros ->.
      * by intros [? ?].
Qed.

(** X10: emptying a queue with [top] and [pop] sorts its elements.  On a
    queue in heap order whose size counts its nodes (at most 2^31), with a
    comparator that is a strict weak order and does not throw, as many
    rounds of [top()] and [pop()] as there are elements all return; the
    values [top] returned are the elements of the queue, none of them
    strictly before a later one; the queue ends empty with a null root and
    all its nodes released. *)
Theorem drain_sorted fuel w this q t d :
  total_compare → asymmetric → negatively_transitive →
  objs w !! this = Some q → rep (mem w) (root q) t d →
  heap_ordered t = true → size q = Z.of_nat (nodes t) →
  (size q ≤ 2 ^ 31)%Z → nodes t < fuel →
  ∃ vs w',
    drain fuel (nodes t) this w = Ret vs w' ∧
    vs ≡ₚ elems t ∧
    StronglySorted (λ x y, lessb x y = false) vs ∧
    objs w' = <[this := mkPQ 0 None]> (objs w) ∧
    dom (mem w') = dom (mem w) ∖ d.
Proof.
  intros Htot Has Hnt Hq Hrep Ho Hsize Hle Hfuel.
  apply (drain_rep (nodes t) fuel w this q t d); try done. lia.
Qed.

(** ** merge *)

(** X11: what [top] returns after [A.merge(B)] for two different queues
    that both own a tree with a root: the top of [B] when the top of [A] is
    strictly before it, the top of [A] otherwise (also when the two are
    equivalent); [top] on [B] throws afterwards. *)
Theorem top_after_merge fuel w this other A B la va ra lb vb rb da db :
  total_compare → this ≠ other →
  objs w !! this = Some A → objs w !! other = Some B →
  rep (mem w) (root A) (Node la va ra) da →
  rep (mem w) (root B) (Node lb vb rb) db → da ## db →
  nodes (Node la va ra) + nodes (Node lb vb rb) < fuel →
  ∃ w',
    merge fuel this other w = Ret tt w' ∧
    top this w' =
      (if (to_size_t (size A + size B) =? 0)%Z then Throw container_is_empty w'
       else Ret (if lessb va vb then vb else va) w') ∧
    top other w' = Throw container_is_empty w'.
Proof.
  intros Htot Hne HA HB Ha Hb Hdisj Hfuel.
  pose proof (lookup_lt_Some _ _ _ HA) as Hi.
  pose proof (lookup_lt_Some _ _ _ HB) as Hj.
  destruct (MergeNode_rep fuel _ _ _ _ _ _ _ Ha Hb)
    as [[_ Hlow]|[(p & σ' & E & _ & _ & _ & Hm)|[e E]]];
    [lia| |by apply MergeNode_no_throw in E].
  specialize (Hm Hdisj).
  unfold merge. rewrite HA, HB, E.
  rewrite list_lookup_insert_eq by done.
  rewrite list_lookup_insert_ne, HB by done.
  rewrite list_insert_insert_eq. unfold set_capacity, set_root; simpl.
  eexists. split; [done|]. split.
  - simp Merge_spec in Hm.
    assert (∃ l r, (if lessb va vb
                    then Node (Merge_spec rb (Node la va ra)) vb lb
                    else Node (Merge_spec ra (Node lb vb rb)) va la)
                   = Node l (if lessb va vb then vb else va) r) as (l & r & Et)
      by (destruct (lessb va vb); by eexists _, _).
    rewrite Et in Hm.
    erewrite top_of_rep; [|simpl; rewrite list_lookup_insert_ne by done;
                            by apply list_lookup_insert_eq|exact Hm].
    done.
  - unfold top. simpl. rewrite list_lookup_insert_eq; [done|]. by rewrite length_insert.
Qed.

(** X12: merging with an empty queue moves no node.  [A.merge(B)] for an
    empty [B] is a no-op: the store and both queues are exactly as before.
    For an empty [A] the tree of [B] changes owner as it is: afterwards [A]
    has the root and the size [B] had, and [B] is empty. *)
Theorem merge_with_empty fuel w this other A B :
  this ≠ other → 0 < fuel →
  objs w !! this = Some A → objs w !! other = Some B →
  (0 ≤ size A < 2 ^ 64)%Z → (0 ≤ size B < 2 ^ 64)%Z →
  (B = mkPQ 0 None → merge fuel this other w = Ret tt w) ∧
  (A = mkPQ 0 None →
   merge fuel this other w =
     Ret tt (mkWorld (mem w) (<[other := mkPQ 0 None]> (<[this := B]> (objs w))))).
Proof.
  intros Hne Hfuel HA HB HsA HsB.
  pose proof (lookup_lt_Some _ _ _ HA) as Hi.
  pose proof (lookup_lt_Some _ _ _ HB) as Hj.
  destruct fuel as [|fuel]; [lia|]. unfold size in *. split; intros ->.
  - assert (MergeNode (S fuel) (root A) None (mem w) = Ret (root A) (mem w)) as E
      by (simpl; by destruct (root A)).
    unfold merge. rewrite HA, HB. cbn [root]. rewrite E.
    rewrite list_lookup_insert_eq by done.
    rewrite list_lookup_insert_ne, HB by done.
    rewrite list_insert_insert_eq. unfold set_capacity, set_root; simpl.
    rewrite Z.add_0_r, to_size_t_id by done.
    destruct A as [c rt]. simpl.
    rewrite (list_insert_id _ this) by done.
    rewrite list_insert_id by done. by destruct w.
  - unfold merge. rewrite HA, HB. simpl.
    rewrite list_lookup_insert_eq by done.
    rewrite list_lookup_insert_ne, HB by done.
    rewrite list_insert_insert_eq. unfold set_capacity, set_root; simpl.
    rewrite to_size_t_id by done. by destruct B.
Qed.

(** X13: [q.merge(q)] loses the queue.  Both arguments of [MergeNode] are
    the same tree; the call returns, the queue ends with size 0 and a null
    root, and not one of its nodes has been released. *)
Theorem merge_self_loses_nodes fuel w this q t d :
  total_compare →
  objs w !! this = Some q → rep (mem w) (root q) t d →
  nodes t + nodes t < fuel →
  ∃ σ',
    merge fuel this this w = Ret tt (mkWorld σ' (<[this := mkPQ 0 None]> (objs w))) ∧
    dom σ' = dom (mem w) ∧ d ⊆ dom σ' ∧
    (∀ x, x ∉ d → σ' !! x = mem w !! x).
Proof.
  intros Htot Hq Hr Hfuel.
  pose proof (lookup_lt_Some _ _ _ Hq) as Hi.
  destruct (MergeNode_rep fuel _ _ _ _ _ _ _ Hr Hr)
    as [[_ Hlow]|[(p & σ' & E & Hdom & Hfr & _ & _)|[e E]]];
    [lia| |by apply MergeNode_no_throw in E].
  exists σ'. unfold merge. rewrite Hq, E.
  rewrite list_lookup_insert_eq by done.
  rewrite !list_insert_insert_eq. split_and!; [done|done| |].
  - rewrite Hdom. by eapply rep_dom.
  - intros x Hx. apply Hfr. set_solver + Hx.
Qed.

(** X14: a comparator that throws during [merge] leaves no trace: the
    store and both queues are exactly as before the call. *)
Theorem merge_failure_noop fuel w this other A B ex σ1 :
  objs w !! this = Some A → objs w !! other = Some B →
  MergeNode fuel (root A) (root B) (mem w) = Throw ex σ1 →
  merge fuel this other w = Ret tt w.
Proof.
  intros HA HB Hm. pose proof (MergeNode_throw _ _ _ _ _ _ Hm) as ->.
  unfold merge. rewrite HA, HB, Hm. by rewrite world_eta.
Qed.

(** ** Assignment and destruction *)

Lemma assign_rep fuel w this other A B ta tb da db :
  other ≠ this →
  objs w !! this = Some A → objs w !! other = Some B →
  rep (mem w) (root A) ta da → rep (mem w) (root B) tb db → da ## db →
  (assign fuel this other w = OutOfFuel ∧ fuel ≤ nodes ta + nodes tb) ∨
  ∃ p σ' d',
    assign fuel this other w =
      Ret tt (mkWorld σ' (<[this := mkPQ (capacity B) p]> (objs w))) ∧
    rep σ' p tb d' ∧ rep σ' (root B) tb db ∧
    d' ## dom (mem w) ∖ da ∧
    dom σ' = dom (mem w) ∖ da ∪ d' ∧
    (∀ x, x ∈ dom (mem w) → x ∉ da → σ' !! x = mem w !! x).
Proof.
  intros Hne HA HB Ha Hb Hdisj.
  unfold assign. rewrite decide_False by done. rewrite HA, HB.
  destruct (ClearNode_rep fuel _ _ _ _ Ha) as [[-> Hlow]|(σ1 & -> & Hdom1 & Hfr1)].
  { left. split; [done|lia]. }
  assert (Hb1 : rep σ1 (root B) tb db).
  { eapply rep_frame; [exact Hb|]. intros x Hx. apply Hfr1. set_solver + Hx Hdisj. }
  destruct (copy_rep fuel None _ _ _ _ Hb1)
    as [[-> Hlow]|(p & σ2 & d' & -> & _ & Hrp & Hdj2 & Hdom2 & Hfr2)].
  { left. split; [done|lia]. }
  right. exists p, σ2, d'. split_and!; [done|by apply Hrp; right| | | |].
  - eapply rep_frame; [exact Hb1|]. intros x Hx. apply Hfr2.
    by apply (rep_dom _ _ _ _ Hb1).
  - by rewrite <-Hdom1.
  - by rewrite Hdom2, Hdom1.
  - intros x Hx Hxa. rewrite Hfr2 by (rewrite Hdom1; set_solver + Hx Hxa).
    by apply Hfr1.
Qed.

(** X15: [A = B] for two different queues that own disjoint trees
    releases the nodes of [A], gives [A] the size of [B] and a tree equal to
    the tree of [B], built from nodes that no live node occupies, and leaves
    the tree of [B] and every node outside the old tree of [A] as they
    were. *)
Theorem assign_replaces fuel w this other A B ta tb da db :
  other ≠ this →
  objs w !! this = Some A → objs w !! other = Some B →
  rep (mem w) (root A) ta da → rep (mem w) (root B) tb db → da ## db →
  nodes ta + nodes tb < fuel →
  ∃ w' A' d',
    assign fuel this other w = Ret tt w' ∧
    objs w' !! this = Some A' ∧ objs w' !! other = Some B ∧
    size A' = size B ∧
    rep (mem w') (root A') tb d' ∧ rep (mem w') (root B) tb db ∧
    d' ## db ∧
    dom (mem w') = dom (mem w) ∖ da ∪ d' ∧
    (∀ x, x ∈ dom (mem w) → x ∉ da → mem w' !! x = mem w !! x).
Proof.
  intros Hne HA HB Ha Hb Hdisj Hfuel.
  destruct (assign_rep fuel _ _ _ _ _ _ _ _ _ Hne HA HB Ha Hb Hdisj)
    as [[_ Hlow]|(p & σ' & d' & E & Hp & Hb' & Hd' & Hdom & Hfr)]; [lia|].
  eexists _, (mkPQ (capacity B) p), d'. split; [exact E|]. simpl.
  pose proof (rep_dom _ _ _ _ Hb) as Hdb.
  split_and!; try done.
  - apply list_lookup_insert_eq. by eapply lookup_lt_Some.
  - by rewrite list_lookup_insert_ne.
  - set_solver + Hd' Hdb Hdisj.
Qed.

Lemma union_list_insert (ds : list (gset positive)) i d d' :
  ds !! i = Some d →
  (∀ j dj, j ≠ i → ds !! j = Some dj → dj ## d) →
  ⋃ (<[i := d']> ds) = ⋃ ds ∖ d ∪ d'.
Proof.
  intros Hi Hdisj. pose proof (lookup_lt_Some _ _ _ Hi) as Hlt.
  apply set_eq. intros x.
  rewrite elem_of_union, elem_of_difference, !elem_of_union_list. split.
  - intros (Y & HY & Hx). apply list_elem_of_lookup in HY as [j Hj].
    destruct (decide (j = i)) as [->|Hji].
    + rewrite list_lookup_insert_eq in Hj by done. injection Hj as <-. by right.
    + rewrite list_lookup_insert_ne in Hj by done. left. split.
      * exists Y. split; [by eapply list_elem_of_lookup_2|done].
      * specialize (Hdisj _ _ Hji Hj). set_solver + Hdisj Hx.
  - intros [[(Y & HY & Hx) Hnd]|Hx].
    + apply list_elem_of_lookup in HY as [j Hj].
      assert (j ≠ i) by (intros ->; congruence).
      exists Y. split; [|done]. apply (list_elem_of_lookup_2 _ j).
      by rewrite list_lookup_insert_ne.
    + exists d'. split; [|done]. apply (list_elem_of_lookup_2 _ i).
      by apply list_lookup_insert_eq.
Qed.

Lemma union_list_snoc (ds : list (gset positive)) d : ⋃ (ds ++ [d]) = ⋃ ds ∪ d.
Proof.
  apply set_eq. intros x.
  rewrite elem_of_union, !elem_of_union_list. split.
  - intros (Y & HY & Hx). apply elem_of_app in HY as [HY|HY]; [left; eauto|].
    apply list_elem_of_singleton in HY as ->. by right.
  - intros [(Y & HY & Hx)|Hx].
    + exists Y. split; [|done]. apply elem_of_app. by left.
    + exists d. split; [|done]. apply elem_of_app. right. by apply list_elem_of_singleton.
Qed.

Lemma union_list_lookup (ds : list (gset positive)) i d : ds !! i = Some d → d ⊆ ⋃ ds.
Proof.
  intros Hi x Hx. apply elem_of_union_list. exists d. split; [|done].
  by eapply list_elem_of_lookup_2.
Qed.

(** X16: the destructor releases exactly the nodes of the queue.  Among
    queues that own pairwise disjoint trees, every other queue still owns
    its tree afterwards; and when the live nodes were exactly the nodes the
    queues own, they still are. *)
Theorem destructor_frees fuel w this ts ds q t d :
  shape w ts ds →
  objs w !! this = Some q → ts !! this = Some t → ds !! this = Some d →
  nodes t < fuel →
  ∃ σ',
    let w' := mkWorld σ' (<[this := mkPQ (capacity q) None]> (objs w)) in
    destructor fuel this w = Ret tt w' ∧
    dom σ' = dom (mem w) ∖ d ∧
    (∀ x, x ∉ d → σ' !! x = mem w !! x) ∧
    shape w' (<[this := Leaf]> ts) (<[this := ∅]> ds) ∧
    (dom (mem w) = ⋃ ds → dom σ' = ⋃ (<[this := ∅]> ds)).
Proof.
  intros Hs Hq Ht Hd Hfuel.
  pose proof (shape_rep _ _ _ Hs _ _ _ _ Hq Ht Hd) as Hrep.
  destruct (ClearNode_rep fuel _ _ _ _ Hrep) as [[_ Hlow]|(σ' & E & Hdom & Hfr)]; [lia|].
  exists σ'. simpl. unfold destructor. rewrite Hq, E. split_and!; try done.
  - apply shape_update; [done|by eapply lookup_lt_Some|constructor|].
    intros j dj Hj Hdj.
    pose proof (shape_disj _ _ _ Hs _ _ _ _ Hj Hdj Hd) as Hdisj.
    split; [set_solver +|]. intros x Hx. apply Hfr. set_solver + Hx Hdisj.
  - intros Hall. rewrite (union_list_insert _ _ d), Hdom, Hall; [set_solver +|done|].
    intros j dj Hj Hdj. exact (shape_disj _ _ _ Hs _ _ _ _ Hj Hdj Hd).
Qed.

(** ** Sequences of calls *)

(** X17: calls that do not write to a queue leave it as it was.  Along
    any sequence of admissible calls in which queue [a] is not the receiver
    of [push], [pop] or [operator=] and is not named by [merge], queue [a]
    keeps its size and its root, still owns the same tree, and [top] returns
    what it returned before. *)
Theorem unwritten_queue_unchanged fuel a w ops w' ts ds qa ta :
  shape w ts ds → objs w !! a = Some qa → ts !! a = Some ta →
  runs fuel (spares a) w ops w' →
  objs w' !! a = Some qa ∧
  (∃ d', rep (mem w') (root qa) ta d') ∧
  (∀ v, top a w = Ret v w → top a w' = Ret v w').
Proof.
  intros Hs Hq Hta Hruns.
  destruct (shape_lookup _ _ _ _ _ Hs Hq) as (ta0 & da & Hta0 & Hda & Hrep).
  rewrite Hta in Hta0. injection Hta0 as <-.
  pose proof (lookup_lt_Some _ _ _ Hq) as Hlq.
  pose proof (lookup_lt_Some _ _ _ Hta) as Hlt.
  destruct (runs_invariant fuel (spares a)
              (λ qs ts, qs !! a = Some qa ∧ ts !! a = Some ta))
    with (w := w) (ops := ops) (w' := w') (ts := ts) (ds := ds)
    as (ts' & ds' & Hs' & Hq' & Hta'); [|done|done|done|].
  { intros w0 o ts0 ds0 _ [Hq0 Ht0] [Hadm Hnw]. split; [done|].
    intros qs' ts1 Htr.
    pose proof (lookup_lt_Some _ _ _ Hq0) as Hl0.
    pose proof (lookup_lt_Some _ _ _ Ht0) as Hl1.
    destruct Htr; simpl in Hnw; try done;
      try (by rewrite !lookup_app_l by done);
      by rewrite !list_lookup_insert_ne by (intros ->; tauto). }
  destruct (shape_lookup _ _ _ _ _ Hs' Hq') as (ta' & da' & Hta'' & _ & Hrep').
  rewrite Hta' in Hta''. injection Hta'' as <-.
  split_and!; [done|by eexists|]. intros v Htop.
  destruct ta as [|l x r].
  { inversion Hrep as [Hroot| ]. unfold top in Htop. rewrite Hq in Htop.
    destruct (empty qa); [done|]. by rewrite <-Hroot in Htop. }
  rewrite (top_of_rep _ _ _ _ _ _ _ Hq Hrep) in Htop.
  rewrite (top_of_rep _ _ _ _ _ _ _ Hq' Hrep').
  destruct (empty qa); [done|]. by injection Htop as ->.
Qed.

Lemma step_tidy fuel o w ts ds w' :
  shape w ts ds → dom (mem w) = ⋃ ds → tidy w o → lands (step fuel o w) w' →
  ∃ ts' ds', shape w' ts' ds' ∧ dom (mem w') = ⋃ ds'.
Proof.
  intros Hs Hall [Hadm Htidy] Hland.
  assert (Hsame : w' = w → ∃ ts' ds', shape w' ts' ds' ∧ dom (mem w') = ⋃ ds').
  { intros ->. by exists ts, ds. }
  assert (Hothers : ∀ i d, ds !! i = Some d →
            ∀ j dj, j ≠ i → ds !! j = Some dj → dj ## d).
  { intros i d Hd j dj Hj Hdj. exact (shape_disj _ _ _ Hs _ _ _ _ Hj Hdj Hd). }
  destruct o as [|junk rt c|junk j|i j|i|i e|i|i j]; simpl in *.
  - destruct (construct_spec _ _ _ Hs) as [_ Hs'].
    destruct Hland as [[= <-]|[? [=]]].
    eexists _, _. split; [exact Hs'|]. simpl. rewrite union_list_snoc, Hall. set_solver +.
  - done.
  - destruct (objs w !! j) as [qj|] eqn:Hqj;
      [|unfold construct_copy in Hland; rewrite Hqj in Hland;
        by destruct Hland as [|[? ?]]].
    destruct (shape_lookup _ _ _ _ _ Hs Hqj) as (tj & dj & Htj & Hdj & Hrj).
    unfold construct_copy in Hland. rewrite Hqj in Hland.
    destruct (copy_rep fuel junk _ _ _ _ Hrj)
      as [[E _]|(p & σ2 & d' & E & Hnull & Hrp & Hdj2 & Hdom2 & Hfr2)];
      rewrite E in Hland; simpl in Hland; [by destruct Hland as [|[? ?]]|].
    destruct Hland as [[= <-]|[? [=]]].
    exists (ts ++ [tj]), (ds ++ [d']). split.
    + apply (shape_append _ _ _ (mkPQ (capacity qj) p)); [done| |].
      { apply Hrp. destruct Hadm as [->|(q & Hq & Hroot)]; [by right|left; congruence]. }
      intros k dk Hdk. pose proof (shape_dom _ _ _ _ _ Hs Hdk) as Hkd.
      split; [set_solver + Hkd Hdj2|]. intros x Hx. apply Hfr2. by apply Hkd.
    + simpl. by rewrite union_list_snoc, Hdom2, Hall.
  - destruct (decide (j = i)) as [->|Hji].
    { unfold assign in Hland. rewrite decide_True in Hland by done.
      destruct Hland as [[= <-]|[? [=]]]. by apply Hsame. }
    destruct (objs w !! i) as [qi|] eqn:Hqi;
      [|unfold assign in Hland; rewrite decide_False, Hqi in Hland by done;
        by destruct Hland as [|[? ?]]].
    destruct (objs w !! j) as [qj|] eqn:Hqj;
      [|unfold assign in Hland; rewrite decide_False, Hqi, Hqj in Hland by done;
        by destruct Hland as [|[? ?]]].
    destruct (shape_lookup _ _ _ _ _ Hs Hqi) as (ti & di & Hti & Hdi & Hri).
    destruct (shape_lookup _ _ _ _ _ Hs Hqj) as (tj & dj & Htj & Hdj & Hrj).
    assert (i ≠ j) as Hij by done.
    pose proof (shape_disj _ _ _ Hs _ _ _ _ Hij Hdi Hdj) as Hdij.
    destruct (assign_rep fuel _ _ _ _ _ _ _ _ _ Hji Hqi Hqj Hri Hrj Hdij)
      as [[E _]|(p & σ' & d' & E & Hp & Hb' & Hd' & Hdom & Hfr)];
      rewrite E in Hland; [by destruct Hland as [|[? ?]]|].
    destruct Hland as [[= <-]|[? [=]]].
    exists (<[i := tj]> ts), (<[i := d']> ds). split.
    + apply shape_update; [done|by eapply lookup_lt_Some|done|].
      intros k dk Hk Hdk.
      pose proof (shape_disj _ _ _ Hs _ _ _ _ Hk Hdk Hdi) as Hki.
      pose proof (shape_dom _ _ _ _ _ Hs Hdk) as Hkd.
      split; [set_solver + Hki Hkd Hd'|].
      intros x Hx. apply Hfr; [by apply Hkd|]. set_solver + Hx Hki.
    + simpl. rewrite (union_list_insert _ _ di), Hdom, Hall; eauto.
  - apply Hsame. unfold top in Hland.
    destruct (objs w !! i) as [q|]; [|by destruct Hland as [|[? ?]]].
    destruct (empty q); simpl in Hland.
    { by destruct Hland as [|[? [= _ <-]]]. }
    destruct (deref (mem w) (root q)); simpl in Hland;
      [by destruct Hland as [[= <-]|[? [=]]] | by destruct Hland as [|[? ?]]].
  - destruct (objs w !! i) as [q|] eqn:Hq;
      [|unfold push in Hland; rewrite Hq in Hland; by destruct Hland as [|[? ?]]].
    destruct (shape_lookup _ _ _ _ _ Hs Hq) as (t & d & Ht & Hd & _).
    destruct (push_spec fuel _ e _ _ _ _ _ _ Hs Hq Ht Hd)
      as [[E _]|[[_ E]|(p & σ' & E & Hdom & Hs')]];
      rewrite E in Hland; [by destruct Hland as [|[? ?]]| |].
    { destruct Hland as [[= <-]|[? [=]]]. by apply Hsame. }
    destruct Hland as [[= <-]|[? [=]]].
    eexists _, _. split; [apply Hs'|]. simpl.
    rewrite (union_list_insert _ _ d), Hdom, Hall; eauto.
    pose proof (union_list_lookup _ _ _ Hd) as Hsub.
    revert Hsub. generalize (⋃ ds). clear. intros U Hsub.
    apply set_eq. intros x. destruct (decide (x ∈ d)); set_solver.
  - destruct (objs w !! i) as [q|] eqn:Hq;
      [|unfold pop in Hland; rewrite Hq in Hland; by destruct Hland as [|[? ?]]].
    destruct (shape_lookup _ _ _ _ _ Hs Hq) as (t & d & Ht & Hd & Hrep).
    pose proof (pop_spec fuel _ _ _ _ _ _ _ Hs Hq Ht Hd) as Hpop.
    destruct (empty q) eqn:Hemp.
    { rewrite Hpop in Hland. apply Hsame. by destruct Hland as [|[? [= _ <-]]]. }
    destruct t as [|l v r]; [rewrite Hpop in Hland; by destruct Hland as [|[? ?]]|].
    destruct Hpop as [[E _]|[[_ E]|(p & σ' & a & E & Hroot & Hdom & Hs')]];
      rewrite E in Hland; [by destruct Hland as [|[? ?]]| |].
    { destruct Hland as [[= <-]|[? [=]]]. by apply Hsame. }
    destruct Hland as [[= <-]|[? [=]]].
    eexists _, _. split; [apply Hs'|]. simpl.
    rewrite (union_list_insert _ _ d), Hdom, Hall; eauto.
    assert (a ∈ d) as Had.
    { rewrite Hroot in Hrep. inversion Hrep; subst. set_solver +. }
    pose proof (union_list_lookup _ _ _ Hd) as Hsub.
    revert Hsub. generalize (⋃ ds). clear -Had. intros U Hsub.
    apply set_eq. intros x. specialize (Hsub x).
    rewrite elem_of_union, !elem_of_difference, elem_of_singleton.
    destruct (decide (x ∈ d)); naive_solver.
  - destruct (objs w !! i) as [qi|] eqn:Hqi;
      [|unfold merge in Hland; rewrite Hqi in Hland; by destruct Hland as [|[? ?]]].
    destruct (shape_lookup _ _ _ _ _ Hs Hqi) as (ti & di & Hti & Hdi & _).
    destruct (objs w !! j) as [qj|] eqn:Hqj;
      [|unfold merge in Hland; rewrite Hqi, Hqj in Hland; by destruct Hland as [|[? ?]]].
    destruct (shape_lookup _ _ _ _ _ Hs Hqj) as (tj & dj & Htj & Hdj & _).
    destruct (merge_spec fuel _ _ _ _ _ _ _ _ _ _ _ Hs Htidy Hqi Hti Hdi Hqj Htj Hdj)
      as [[E _]|[[_ E]|(p & σ' & E & _ & Hdom & Hs')]];
      rewrite E in Hland; [by destruct Hland as [|[? ?]]| |].
    { destruct Hland as [[= <-]|[? [=]]]. by apply Hsame. }
    destruct Hland as [[= <-]|[? [=]]].
    eexists _, _. split; [apply Hs'|]. simpl.
    pose proof (shape_disj _ _ _ Hs _ _ _ _ Htidy Hdi Hdj) as Hdij.
    rewrite (list_insert_insert_ne _ j i) by done.
    rewrite (union_list_insert _ _ di).
    2:{ by rewrite list_lookup_insert_ne. }
    2:{ intros k dk Hk Hdk. destruct (decide (k = j)) as [->|Hkj].
        - rewrite list_lookup_insert_eq in Hdk by (by eapply lookup_lt_Some).
          injection Hdk as <-. set_solver +.
        - rewrite list_lookup_insert_ne in Hdk by done. eauto. }
    rewrite (union_list_insert _ _ dj), Hdom, Hall; eauto.
    pose proof (union_list_lookup _ _ _ Hdi) as Hsi.
    pose proof (union_list_lookup _ _ _ Hdj) as Hsj.
    revert Hsi Hsj. generalize (⋃ ds). clear -Hdij. intros U Hsi Hsj.
    apply set_eq. intros x.
    destruct (decide (x ∈ di)); destruct (decide (x ∈ dj)); set_solver.
Qed.

(** X18: no node is lost.  After any sequence of admissible calls from
    the state without queues, none of them the merge of a queue with itself,
    every queue owns a tree, no two queues share a node, and every live node
    of the store belongs to the tree of some queue. *)
Theorem no_node_is_lost fuel ops w :
  runs fuel tidy init ops w →
  ∃ ts ds, shape w ts ds ∧ dom (mem w) = ⋃ ds.
Proof.
  assert (Hgen : ∀ w0 w1, runs fuel tidy w0 ops w1 →
            ∀ ts ds, shape w0 ts ds → dom (mem w0) = ⋃ ds →
            ∃ ts' ds', shape w1 ts' ds' ∧ dom (mem w1) = ⋃ ds').
  { intros w0 w1 Hruns.
    induction Hruns as [w0|w0 o w1 ops w2 Hok Hland _ IH]; intros ts ds Hs Hall; [eauto|].
    destruct (step_tidy _ _ _ _ _ _ Hs Hall Hok Hland) as (ts1 & ds1 & Hs1 & Hall1).
    by eapply IH. }
  intros Hruns. eapply Hgen; [exact Hruns|apply shape_init|].
  simpl. by rewrite dom_empty_L.
Qed.

End SkewHeap.

(** * The queue of integers with [std::less] *)

Module IntQueue.

(** [std::less<int>] never throws. *)
Definition less (x y : Z) : option bool := Some (x <? y)%Z.

(** [top()] of queue [this], if it returns. *)
Definition top_of (this : nat) (w : option (@world Z)) : option Z :=
  match w with
  | Some w => match top this w with Ret v _ => Some v | _ => None end
  | None => None
  end.

(** [size()] of queue [this]. *)
Definition size_of (this : nat) (w : option (@world Z)) : option Z :=
  match w with
  | Some w => size <$> objs w !! this
  | None => None
  end.

(** One queue, filled with 5, 3, 8, 1, 9. *)
Definition pushed : list (@op Z) :=
  [Construct; Push 0 5%Z; Push 0 3%Z; Push 0 8%Z; Push 0 1%Z; Push 0 9%Z].

(** Reads a tree off a concrete store. *)
Ltac solve_rep :=
  first
    [ apply rep_null
    | eapply rep_node';
      [reflexivity|solve_rep|solve_rep|compute_done|compute_done|compute_done
      |first [reflexivity|compute_done]] ].

(** A store with two trees: 4 over 2 at addresses 1 and 3, and 7 at address 2. *)
Definition heap_a : gmap positive (@LeftistNode Z) :=
  list_to_map [(1%positive, mkNode 4%Z None (Some 3%positive));
               (3%positive, mkNode 2%Z None None);
               (2%positive, mkNode 7%Z None None)].
Definition tree_a : @tree Z := Node Leaf 4%Z (Node Leaf 2%Z Leaf).
Definition tree_b : @tree Z := Node Leaf 7%Z Leaf.

(** Two queues are filled, merged, pushed to and popped from. *)
Definition calls : list (@op Z) :=
  [Construct; Push 0 5%Z; Push 0 3%Z; Construct; Push 1 8%Z; Push 1 1%Z;
   Merge 0 1; Push 0 9%Z; Pop 0; Pop 1; Top 0].

(** The world they lead to. *)
Definition after_calls : @world Z :=
  Eval vm_compute in default init (exec less 10 calls init).

(** A queue of 4 and 6 and a queue of 7. *)
Definition two_queues : @world Z :=
  Eval vm_compute in
    default init (exec less 10 [Construct; Push 0 4%Z; Push 0 6%Z; Construct; Push 1 7%Z] init).

(** A comparator that throws when asked about two odd numbers. *)
Definition odd_shy (x y : Z) : option bool :=
  if Z.odd x && Z.odd y then None else Some (x <? y)%Z.

(** A queue of 20 over 5 and 13, built with that comparator. *)
Definition odd_sons : @world Z :=
  Eval vm_compute in
    default init (exec odd_shy 10 [Construct; Push 0 20%Z; Push 0 13%Z; Push 0 5%Z] init).

(** One default-constructed queue. *)
Definition one_empty : @world Z := mkWorld ∅ [mkPQ 0 None].


(** The tree and the nodes of the first of [two_queues]. *)
Definition tree_46 : @tree Z := Node (Node Leaf 4%Z Leaf) 6%Z Leaf.
Definition nodes_46 : gset positive := {[2%positive; 1%positive]}.

(** A queue of 4 and 6 and an empty queue. *)
Definition queue_and_empty : @world Z :=
  Eval vm_compute in
    default init (exec less 10 [Construct; Push 0 4%Z; Push 0 6%Z; Construct] init).

(** Two queues with an odd number each, built with [odd_shy]. *)
Definition odd_pair : @world Z :=
  Eval vm_compute in
    default init (exec odd_shy 10 [Construct; Push 0 3%Z; Construct; Push 1 5%Z] init).

(** Calls that read the second of [two_queues] and write to others. *)
Definition spared_calls : list (@op Z) :=
  [Push 0 9%Z; Pop 0; Construct; Assign 2 1; Push 2 1%Z; Merge 0 2; Top 1].

Definition after_spared : @world Z :=
  Eval vm_compute in default init (exec less 10 spared_calls two_queues).

(** [two_queues] copied, and the copy pushed to and popped from. *)
Definition copied : @world Z :=
  Eval vm_compute in default init (exec less 10 [ConstructCopy None 0] two_queues).

Definition copy_mutated : @world Z :=
  Eval vm_compute in default init (exec less 10 [Push 2 9%Z; Pop 2; Pop 2] copied).

(** ** Checks and instances of the claims *)

Lemma less_total : total_compare less.
Proof. intros x y. by eexists. Qed.

Lemma less_asymmetric : asymmetric less.
Proof. intros x y [= H1] [= H2]. lia. Qed.

Lemma less_negatively_transitive : negatively_transitive less.
Proof. intros x y z. unfold lessb, less. lia. Qed.

(** Pushing 5, 3, 8, 1, 9 and popping five times shows 9, 8, 5, 3, 1. *)
Example extract_all :
  (λ k, top_of 0 (exec less 10 (pushed ++ replicate k (Pop 0)) init)) <$> [0; 1; 2; 3; 4; 5]
  = [Some 9; Some 8; Some 5; Some 3; Some 1; None]%Z.
Proof. vm_compute. reflexivity. Qed.

(** Merging the singleton queues of 4 and 7 gives a queue of size 2 with 7 on top. *)
Example merge_singletons :
  let w := exec less 10 [Construct; Push 0 4%Z; Construct; Push 1 7%Z; Merge 0 1] init in
  (top_of 0 w, size_of 0 w, size_of 1 w) = (Some 7, Some 2, Some 0)%Z.
Proof. vm_compute. reflexivity. Qed.

Lemma rep_tree_a : rep heap_a (Some 1%positive) tree_a {[1%positive; 3%positive]}.
Proof. unfold tree_a. solve_rep. Defined.

Lemma rep_tree_b : rep heap_a (Some 2%positive) tree_b {[2%positive]}.
Proof. unfold tree_b. solve_rep. Defined.

(** C1 at two small trees: 4 over 2 merged with 7 puts 7 on top. *)
Lemma MergeNode_skew_merge_witness :
  ∃ p σ',
    MergeNode less 4 (Some 1%positive) (Some 2%positive) heap_a = Ret p σ' ∧
    rep σ' p (Merge_spec less tree_a tree_b) ({[1%positive; 3%positive]} ∪ {[2%positive]}) ∧
    p = Some 2%positive.
Proof.
  destruct (MergeNode_skew_merge less 4 heap_a (Some 1%positive) (Some 2%positive)
              tree_a tree_b {[1%positive; 3%positive]} {[2%positive]}
              less_total rep_tree_a rep_tree_b)
    as (p & σ' & E & Hrep & _ & _ & _ & Hstep).
  - compute_done.
  - simpl. lia.
  - exists p, σ'. split_and!; [done|done|].
    destruct (Hstep 1%positive 2%positive _ _ eq_refl eq_refl eq_refl eq_refl)
      as (c & m & σ1 & Ec & _ & -> & _).
    by injection Ec as <-.
Defined.

(** C9 at the same two trees: four units of fuel are enough. *)
Lemma MergeNode_terminates_witness :
  (∃ p σ', MergeNode less 4 (Some 1%positive) (Some 2%positive) heap_a = Ret p σ') ∨
  (∃ e, MergeNode less 4 (Some 1%positive) (Some 2%positive) heap_a = Throw e heap_a).
Proof.
  apply (MergeNode_terminates less 4 heap_a _ _ _ _ _ _ rep_tree_a rep_tree_b).
  simpl. lia.
Defined.

Lemma after_calls_heap : runs less 10 heap_op init calls after_calls.
Proof. apply (exec_if_runs less heap_opb), eq_refl. apply heap_opb_ok. Defined.

(** C2 after these calls: the first queue is in heap order with 8 on top. *)
Lemma heap_order_invariant_witness :
  ∃ q t d, objs after_calls !! 0 = Some q ∧
    rep (mem after_calls) (root q) t d ∧ heap_ordered less t = true ∧
    top 0 after_calls = Ret 8%Z after_calls.
Proof.
  destruct (heap_order_invariant less 10 calls after_calls less_asymmetric
              after_calls_heap 0 _ eq_refl) as (t & d & Hrep & Hord & _).
  eexists _, t, d. split_and!; [reflexivity|exact Hrep|exact Hord|reflexivity].
Defined.




(** C3 at these two queues: sizes 2 and 1 give 3 and 0. *)
Lemma merge_size_law_witness :
  ∃ w' A' B',
    merge less 10 0 1 two_queues = Ret tt w' ∧
    objs w' !! 0 = Some A' ∧ objs w' !! 1 = Some B' ∧
    size A' = 3%Z ∧ size B' = 0%Z ∧ empty B' = true ∧ root B' = None.
Proof.
  destruct (merge_size_law less 10 two_queues 0 1 (mkPQ 2 (Some 2%positive))
              (mkPQ 1 (Some 3%positive))
              (Node (Node Leaf 4%Z Leaf) 6%Z Leaf) (Node Leaf 7%Z Leaf)
              {[2%positive; 1%positive]} {[3%positive]} less_total)
    as (w' & A' & B' & E & HA & HB & _ & Hsum & _ & _ & HB0 & HBe & HBr).
  - done.
  - reflexivity.
  - reflexivity.
  - solve_rep.
  - solve_rep.
  - compute_done.
  - simpl. lia.
  - exists w', A', B'. split_and!; try done. apply Hsum. simpl. lia.
Defined.

(** C6 at the first of them: [top] returns 6 and [pop] does not throw. *)
Lemma empty_container_error_witness :
  top 0 two_queues = Ret 6%Z two_queues ∧
  (∀ e w', pop less 10 0 two_queues ≠ Throw e w').
Proof.
  destruct (empty_container_error less 10 two_queues 0 (mkPQ 2 (Some 2%positive)) eq_refl)
    as (_ & Hpop & Htop & _).
  split.
  - apply (Htop (mkNode 6%Z (Some 1%positive) None)); [done|reflexivity].
  - intros e w' Hthrow. apply Hpop in Hthrow as [Hsize _]. done.
Defined.

Lemma odd_sons_reached :
  runs odd_shy 10 any_call init [Construct; Push 0 20%Z; Push 0 13%Z; Push 0 5%Z] odd_sons.
Proof. apply (exec_if_runs odd_shy (λ _ _, true)), eq_refl. done. Defined.

(** C7 as amended, at the queue of 20 over 5 and 13: the comparison of
    the two sons throws, and [pop] leaves everything as it is. *)
Lemma pop_failure_noop_witness :
  pop odd_shy 10 0 odd_sons = Ret tt odd_sons ∧
  reaches (mem odd_sons) (Some 1%positive) 1%positive.
Proof.
  apply (pop_failure_noop odd_shy 10 odd_sons 0 (mkPQ 3 (Some 1%positive)) 1%positive
           (mkNode 20%Z (Some 3%positive) (Some 2%positive)) compare_failure (mem odd_sons));
    reflexivity.
Defined.

(** C7 as it was claimed fails there: after the failed [pop] the old
    root node is not leaked, it is still the root of the queue. *)
Lemma pop_failure_not_leaked :
  ∃ q a n,
    objs odd_sons !! 0 = Some q ∧ empty q = false ∧
    root q = Some a ∧ mem odd_sons !! a = Some n ∧
    MergeNode odd_shy 10 (ls n) (rs n) (mem odd_sons) = Throw compare_failure (mem odd_sons) ∧
    pop odd_shy 10 0 odd_sons = Ret tt odd_sons ∧
    ¬ leaked odd_sons 0 a.
Proof.
  exists (mkPQ 3 (Some 1%positive)), 1%positive,
         (mkNode 20%Z (Some 3%positive) (Some 2%positive)).
  split_and!; try reflexivity.
  intros [_ Hno]. apply (Hno _ eq_refl). simpl. by econstructor.
Qed.

(** C4 fails on a queue of 2^31 + 1 elements, reached by that many calls
    of [push]: [pop] stores [capacity - 1] in an [int], and the size it
    writes back is 2^64 - 2^31 instead of 2^31. *)
Theorem pop_truncates_size :
  ∃ w w' q q',
    runs less (S (Z.to_nat (2 ^ 31 + 1))) any_call init
      (Construct :: replicate (Z.to_nat (2 ^ 31 + 1)) (Push 0 0%Z)) w ∧
    objs w !! 0 = Some q ∧ size q = (2 ^ 31 + 1)%Z ∧
    pop less (S (Z.to_nat (2 ^ 31 + 1))) 0 w = Ret tt w' ∧
    objs w' !! 0 = Some q' ∧
    size q' = (2 ^ 64 - 2 ^ 31)%Z.
Proof.
  assert (Hbig : Z.of_nat (Z.to_nat (2 ^ 31 + 1)) = (2 ^ 31 + 1)%Z).
  { apply Z2Nat.id. apply Z.lt_le_incl. reflexivity. }
  generalize dependent (Z.to_nat (2 ^ 31 + 1)). intros n Hbig.
  destruct (pop_after_pushes less (S n) 0%Z n less_total (Nat.lt_succ_diag_r n))
    as (w & w' & q & q' & Hruns & Hq & Hsize & Hpop & Hq' & Hsize').
  { rewrite Hbig. split; reflexivity. }
  exists w, w', q, q'. rewrite Hbig in Hsize, Hsize'.
  split_and!; try assumption.
Qed.

(** C8 fails for the copy of an empty queue: the copy constructor leaves
    [root] as it finds it, here pointing at an address that is not live, and
    the first [push] on the copy uses that pointer. *)
Theorem copy_of_empty_keeps_junk :
  construct init = Ret 0 one_empty ∧
  ∃ w q,
    construct_copy 10 (Some 7%positive) 0 one_empty = Ret 1 w ∧
    objs w !! 1 = Some q ∧ root q = Some 7%positive ∧ size q = 0%Z ∧
    mem w !! 7%positive = None ∧
    push less 10 1 5%Z w = Fault.
Proof.
  split; [reflexivity|].
  eexists _, _. split_and!; reflexivity.
Qed.


(** ** Instances of the further properties *)

Lemma rep_tree_46 : rep (mem two_queues) (Some 2%positive) tree_46 nodes_46.
Proof. unfold tree_46, nodes_46. simpl. solve_rep. Qed.

Lemma rep_tree_7 :
  rep (mem two_queues) (Some 3%positive) (Node Leaf 7%Z Leaf) {[3%positive]}.
Proof. simpl. solve_rep. Qed.

Lemma two_queues_shape :
  shape two_queues [tree_46; Node Leaf 7%Z Leaf] [nodes_46; {[3%positive]}].
Proof.
  split; try done.
  - intros [|[|i]] q t d Hq Ht Hd; simpl in *; simplify_eq;
      [apply rep_tree_46|apply rep_tree_7].
  - intros [|[|i]] [|[|j]] di dj Hij Hi Hj; simpl in *; simplify_eq; compute_done.
Qed.

(** X1 at the tree 4 over 2 of [heap_a]: its two nodes are released and
    the node at address 2 stays. *)
Lemma ClearNode_frees_tree_witness :
  ∃ σ', ClearNode 3 (Some 1%positive) heap_a = Ret None σ' ∧
    dom σ' = dom heap_a ∖ {[1%positive; 3%positive]} ∧
    σ' !! 2%positive = Some (mkNode 7%Z None None).
Proof.
  destruct (ClearNode_frees_tree 3 _ _ _ _ rep_tree_a) as (σ' & E & Hdom & Hfr).
  - compute. lia.
  - exists σ'. split_and!; [done|done|]. rewrite Hfr; [reflexivity|compute_done].
Defined.

(** X2 at the same tree: the copy is an equal tree at fresh addresses. *)
Lemma copy_is_deep_witness :
  ∃ q σ' d',
    copy 3 None (Some 1%positive) heap_a = Ret q σ' ∧
    rep σ' q tree_a d' ∧ rep σ' (Some 1%positive) tree_a {[1%positive; 3%positive]} ∧
    d' ## dom heap_a.
Proof.
  destruct (copy_is_deep 3 None _ _ _ _ rep_tree_a)
    as (q & σ' & d' & E & _ & Hrep & Hd & _).
  - compute. lia.
  - exists q, σ', d'. destruct Hrep as [Hq Hp]; [by eexists|]. done.
Defined.

(** X3 at the two trees of [heap_a]. *)
Lemma MergeNode_relinks_only_witness :
  ∃ p σ',
    MergeNode less 4 (Some 1%positive) (Some 2%positive) heap_a = Ret p σ' ∧
    dom σ' = dom heap_a ∧
    value <$> σ' !! 1%positive = Some 4%Z ∧
    (p = Some 1%positive ∨ p = Some 2%positive).
Proof.
  eexists _, _. split; [reflexivity|].
  destruct (MergeNode_relinks_only less 4 (Some 1%positive) (Some 2%positive) heap_a
              _ _ eq_refl) as (Hdom & Hval & Hp).
  split_and!; [exact Hdom|by rewrite Hval|exact Hp].
Defined.

(** X4 at the first of [two_queues]: 6 is printed before 4. *)
Lemma traverse_prints_elements_witness :
  traverse 3 0 two_queues = Ret [6; 4]%Z two_queues ∧
  top 0 two_queues = Ret 6%Z two_queues.
Proof.
  destruct (traverse_prints_elements 3 two_queues 0 (mkPQ 2 (Some 2%positive))
              tree_46 nodes_46 eq_refl rep_tree_46) as (_ & Htr & _).
  - compute. lia.
  - split; [exact Htr|reflexivity].
Defined.

(** X5 there: after [push(5)] the queue holds 5, 6 and 4. *)
Lemma push_adds_element_witness :
  ∃ w' q' t' d',
    push less 10 0 5%Z two_queues = Ret tt w' ∧
    objs w' !! 0 = Some q' ∧ size q' = 3%Z ∧
    rep (mem w') (root q') t' d' ∧ elems t' ≡ₚ [5; 6; 4]%Z ∧
    objs w' !! 1 = objs two_queues !! 1.
Proof.
  destruct (push_adds_element less 10 two_queues 0 (mkPQ 2 (Some 2%positive))
              tree_46 nodes_46 5%Z less_total eq_refl rep_tree_46)
    as (w' & q' & t' & d' & E & Hq & Hs & Hr & Hp & _ & _ & _ & Hk).
  - compute. lia.
  - exists w', q', t', d'. split_and!; try done. by apply Hk.
Defined.

(** X6 there: after [push(9)] the top is 9. *)
Lemma top_after_push_witness :
  ∃ w', push less 10 0 9%Z two_queues = Ret tt w' ∧ top 0 w' = Ret 9%Z w'.
Proof.
  destruct (top_after_push less 10 two_queues 0 (mkPQ 2 (Some 2%positive))
              tree_46 nodes_46 9%Z less_total eq_refl rep_tree_46) as (w' & E & Htop).
  - compute. lia.
  - exists w'. split; [exact E|exact Htop].
Defined.

(** X7 at the queue of 20 over 5 and 13: pushing 7 compares 13 with 7,
    the comparator throws, and nothing has changed. *)
Lemma push_failure_noop_witness :
  push odd_shy 10 0 7%Z odd_sons = Ret tt odd_sons.
Proof.
  eapply (push_failure_noop odd_shy 10 odd_sons 0 (mkPQ 3 (Some 1%positive)) 7%Z
            compare_failure); reflexivity.
Defined.

(** X8 at the first of [two_queues]: [pop] removes the top 6. *)
Lemma pop_removes_top_witness :
  ∃ w' q' t' d',
    top 0 two_queues = Ret 6%Z two_queues ∧
    pop less 10 0 two_queues = Ret tt w' ∧
    objs w' !! 0 = Some q' ∧ rep (mem w') (root q') t' d' ∧
    [6; 4]%Z ≡ₚ 6%Z :: elems t'.
Proof.
  destruct (pop_removes_top less 10 two_queues 0 (mkPQ 2 (Some 2%positive))
              (Node Leaf 4%Z Leaf) 6%Z Leaf nodes_46 less_total eq_refl eq_refl rep_tree_46)
    as (w' & q' & t' & d' & Htop & E & Hq & Hr & Hp & _).
  - simpl. lia.
  - by exists w', q', t', d'.
Defined.

(** X9 there: 9 is above the top 6, and [push(9)] then [pop()] gives
    back the state before. *)
Lemma push_pop_restores_witness :
  ∃ w1,
    push less 10 0 9%Z two_queues = Ret tt w1 ∧
    top 0 w1 = Ret 9%Z w1 ∧
    pop less 10 0 w1 = Ret tt two_queues.
Proof.
  apply (push_pop_restores less 10 two_queues 0 (mkPQ 2 (Some 2%positive)) 9%Z eq_refl).
  - compute. split; [discriminate|reflexivity].
  - lia.
  - right. exists 2%positive, (mkNode 6%Z (Some 1%positive) None).
    split_and!; reflexivity.
Defined.

(** X10 there: [top] and [pop] twice give 6 then 4. *)
Lemma drain_sorted_witness :
  ∃ vs w',
    drain less 10 2 0 two_queues = Ret vs w' ∧
    vs ≡ₚ [6; 4]%Z ∧
    StronglySorted (λ x y, lessb less x y = false) vs ∧
    objs w' !! 0 = Some (mkPQ 0 None) ∧
    dom (mem w') = dom (mem two_queues) ∖ nodes_46.
Proof.
  destruct (drain_sorted less 10 two_queues 0 (mkPQ 2 (Some 2%positive)) tree_46 nodes_46
              less_total less_asymmetric less_negatively_transitive eq_refl rep_tree_46)
    as (vs & w' & E & Hp & Hsorted & Hobjs & Hdom).
  - reflexivity.
  - reflexivity.
  - compute. discriminate.
  - compute. lia.
  - exists vs, w'. split_and!; try done. by rewrite Hobjs.
Defined.

(** X11 at [two_queues]: the top 6 is before the top 7, so 7 is the top
    of the merged queue. *)
Lemma top_after_merge_witness :
  ∃ w',
    merge less 10 0 1 two_queues = Ret tt w' ∧
    top 0 w' = Ret 7%Z w' ∧
    top 1 w' = Throw container_is_empty w'.
Proof.
  destruct (top_after_merge less 10 two_queues 0 1 (mkPQ 2 (Some 2%positive))
              (mkPQ 1 (Some 3%positive)) (Node Leaf 4%Z Leaf) 6%Z Leaf Leaf 7%Z Leaf
              nodes_46 {[3%positive]} less_total)
    as (w' & E & Htop & Hother).
  - done.
  - reflexivity.
  - reflexivity.
  - apply rep_tree_46.
  - apply rep_tree_7.
  - compute_done.
  - simpl. lia.
  - by exists w'.
Defined.

(** X12: merging an empty queue into the queue of 4 and 6 changes nothing. *)
Lemma merge_with_empty_witness :
  merge less 10 0 1 queue_and_empty = Ret tt queue_and_empty.
Proof.
  destruct (merge_with_empty less 10 queue_and_empty 0 1 (mkPQ 2 (Some 2%positive))
              (mkPQ 0 None)) as [Hnoop _].
  - done.
  - lia.
  - reflexivity.
  - reflexivity.
  - compute. split; [discriminate|reflexivity].
  - compute. split; [discriminate|reflexivity].
  - by apply Hnoop.
Defined.

(** X13 at the first of [two_queues]: merged with itself it is empty,
    and its two nodes are still live. *)
Lemma merge_self_loses_nodes_witness :
  ∃ σ',
    merge less 10 0 0 two_queues =
      Ret tt (mkWorld σ' (<[0 := mkPQ 0 None]> (objs two_queues))) ∧
    dom σ' = dom (mem two_queues) ∧ nodes_46 ⊆ dom σ'.
Proof.
  destruct (merge_self_loses_nodes less 10 two_queues 0 (mkPQ 2 (Some 2%positive))
              tree_46 nodes_46 less_total eq_refl rep_tree_46)
    as (σ' & E & Hdom & Hsub & _).
  - compute. lia.
  - by exists σ'.
Defined.

(** X14 at two queues with odd tops: the comparator throws. *)
Lemma merge_failure_noop_witness :
  merge odd_shy 10 0 1 odd_pair = Ret tt odd_pair.
Proof.
  eapply (merge_failure_noop odd_shy 10 odd_pair 0 1 (mkPQ 1 (Some 1%positive))
            (mkPQ 1 (Some 2%positive)) compare_failure); reflexivity.
Defined.

(** X15 at [two_queues]: after [A = B] the first queue is a copy of the
    queue of 7. *)
Lemma assign_replaces_witness :
  ∃ w' A' d',
    assign 10 0 1 two_queues = Ret tt w' ∧
    objs w' !! 0 = Some A' ∧ size A' = 1%Z ∧
    rep (mem w') (root A') (Node Leaf 7%Z Leaf) d' ∧
    rep (mem w') (Some 3%positive) (Node Leaf 7%Z Leaf) {[3%positive]} ∧
    d' ## {[3%positive]}.
Proof.
  destruct (assign_replaces 10 two_queues 0 1 (mkPQ 2 (Some 2%positive))
              (mkPQ 1 (Some 3%positive)) tree_46 (Node Leaf 7%Z Leaf)
              nodes_46 {[3%positive]})
    as (w' & A' & d' & E & HA & _ & Hs & Hr & Hb & Hd & _).
  - done.
  - reflexivity.
  - reflexivity.
  - apply rep_tree_46.
  - apply rep_tree_7.
  - compute_done.
  - compute. lia.
  - by exists w', A', d'.
Defined.

(** X16 at [two_queues]: destroying the first queue releases its two
    nodes, and the queue of 7 still owns its tree. *)
Lemma destructor_frees_witness :
  ∃ σ',
    let w' := mkWorld σ' (<[0 := mkPQ 2 None]> (objs two_queues)) in
    destructor 10 0 two_queues = Ret tt w' ∧
    dom σ' = dom (mem two_queues) ∖ nodes_46 ∧
    shape w' [Leaf; Node Leaf 7%Z Leaf] [∅; {[3%positive]}].
Proof.
  destruct (destructor_frees 10 two_queues 0 _ _ (mkPQ 2 (Some 2%positive)) tree_46 nodes_46
              two_queues_shape eq_refl eq_refl eq_refl)
    as (σ' & E & Hdom & _ & Hs & _).
  - compute. lia.
  - by exists σ'.
Defined.

Lemma after_spared_runs : runs less 10 (spares 1) two_queues spared_calls after_spared.
Proof. apply (exec_if_runs less (sparesb 1)), eq_refl. apply sparesb_ok. Qed.

(** X17 at [two_queues]: calls on other queues, one of them an
    assignment from the second queue, leave the second queue as it was. *)
Lemma unwritten_queue_unchanged_witness :
  objs after_spared !! 1 = Some (mkPQ 1 (Some 3%positive)) ∧
  (∃ d', rep (mem after_spared) (Some 3%positive) (Node Leaf 7%Z Leaf) d') ∧
  top 1 after_spared = Ret 7%Z after_spared.
Proof.
  destruct (unwritten_queue_unchanged less 10 1 two_queues spared_calls after_spared _ _
              (mkPQ 1 (Some 3%positive)) (Node Leaf 7%Z Leaf)
              two_queues_shape eq_refl eq_refl after_spared_runs)
    as (Hq & Hrep & Htop).
  split_and!; [exact Hq|exact Hrep|by apply Htop].
Defined.

Lemma after_calls_tidy : runs less 10 tidy init calls after_calls.
Proof. apply (exec_if_runs less tidyb), eq_refl. apply tidyb_ok. Qed.

(** X18 after [calls]: every live node belongs to one of the two queues. *)
Lemma no_node_is_lost_witness :
  ∃ ts ds, shape after_calls ts ds ∧ dom (mem after_calls) = ⋃ ds.
Proof. exact (no_node_is_lost less 10 calls after_calls after_calls_tidy). Defined.

(** X19 at [two_queues]: [pop] on the first queue completes. *)
Lemma step_progress_witness :
  ∃ w', lands (step less 10 (Pop 0) two_queues) w'.
Proof.
  apply (step_progress less 10 (Pop 0) two_queues _ _ two_queues_shape).
  - repeat constructor.
  - split; [|done]. repeat constructor; compute; discriminate.
  - simpl. lia.
  - repeat constructor; compute; lia.
Defined.

Lemma copy_mutated_runs :
  runs less 10 (touches_only 2) copied [Push 2 9%Z; Pop 2; Pop 2] copy_mutated.
Proof.
  apply (exec_if_runs less (λ _ o, match o with Push 2 _ | Pop 2 => true | _ => false end)),
    eq_refl.
  intros w [| | | | | [|[|[|i]]] e | [|[|[|i]]] | ]; by simpl.
Qed.

(** X20 at [two_queues]: the first queue is copied, the copy is pushed
    to and popped from twice, and the first queue still has 6 on top. *)
Lemma copy_construct_independent_witness :
  objs copy_mutated !! 0 = Some (mkPQ 2 (Some 2%positive)) ∧
  top 0 copy_mutated = Ret 6%Z copy_mutated ∧
  top 2 copy_mutated = Ret 4%Z copy_mutated.
Proof.
  destruct (copy_construct_independent less 10 None 0 two_queues copied
              [Push 2 9%Z; Pop 2; Pop 2] copy_mutated _ _ (mkPQ 2 (Some 2%positive)) tree_46
              two_queues_shape eq_refl eq_refl)
    as (_ & Hq & Htop).
  - by eexists.
  - by left.
  - exact copy_mutated_runs.
  - split_and!; [exact Hq|by apply Htop|reflexivity].
Defined.

End IntQueue.
